(** * QuizWiz: the quiz session reducer, the question normalizer and the
      high-score ledger, embedded from the TypeScript sources

    Definitions
    - [Types]    : the records of [types/quiz.ts]
    - [JsArray]  : the JavaScript array operations the reducer relies on
    - [Reducer]  : [quizReducer] of [context/QuizContext.tsx]
    - [Js]       : exceptions, promises, completions, [Math.random]
    - [Api]      : [shuffleArray] and [fetchQuizQuestions] of
                   [services/quizApi.ts]
    - [Json]     : [JSON.parse] and [JSON.stringify]
    - [Ledger]   : [getHighScores] and [saveHighScore] of
                   [context/QuizContext.tsx], over [localStorage]
    - [Spec]     : the notions the specification states its properties in
    - [Examples] : sample questions, sessions, responses and storages

    Properties
    - [ReducerProps], [ApiProps], [JsonProps], [LedgerProps]

    JavaScript numbers that the program only ever uses as integers (indices,
    lengths, scores, seconds) are modelled by [Z]. *)

From Stdlib Require Import ZArith Lia Ascii String Sorted.
From stdpp Require Import base option list strings pretty gmap.

(* ================================================================== *)
(** ** types/quiz.ts *)
(* ================================================================== *)

Module Types.

(** [export type Difficulty = 'easy' | 'medium' | 'hard'] *)
Inductive Difficulty := easy | medium | hard.

Record QuizQuestion := {
  q_id : string;
  question : string;
  options : list string;
  answer : string;
  category : option string;
  q_difficulty : option string;
  q_type : option string
}.

Record ApiQuestion := {
  api_question : string;
  correct_answer : string;
  incorrect_answers : list string;
  api_category : string;
  api_difficulty : string;
  api_type : string
}.

Record ApiResponse := {
  response_code : Z;
  results : list ApiQuestion
}.

(** One element of [userAnswers : (string | null)[]].  The declared type
    has the two cases [Null] and [Str]; at run time an array written past
    its end also has holes, and a hole that went through a spread is the
    value [undefined]. *)
Inductive slot :=
| Hole
| Undef
| Null
| Str (s : string).

Record QuizState := {
  questions : list QuizQuestion;
  currentQuestionIndex : Z;
  userAnswers : list slot;
  score : Z;
  isCompleted : bool;
  difficulty : Difficulty;
  timeLeft : Z;
  isLoading : bool;
  error : option string
}.

Record HighScore := {
  hs_score : Z;
  hs_totalQuestions : Z;
  hs_difficulty : Difficulty;
  hs_date : string
}.

#[global] Instance Difficulty_eq_dec : EqDecision Difficulty.
Proof. solve_decision. Defined.
#[global] Instance slot_eq_dec : EqDecision slot.
Proof. solve_decision. Defined.
#[global] Instance QuizQuestion_eq_dec : EqDecision QuizQuestion.
Proof. solve_decision. Defined.
#[global] Instance HighScore_eq_dec : EqDecision HighScore.
Proof. solve_decision. Defined.

End Types.
Export Types.

(* ================================================================== *)
(** ** JavaScript arrays, as far as the reducer uses them *)
(* ================================================================== *)

Module JsArray.

(** [[...array]]: iterating an array reads a hole as [undefined]. *)
Definition spread (l : list slot) : list slot :=
  (λ x, match x with Hole => Undef | _ => x end) <$> l.

(** A non-negative integer is an array index; writing under a negative
    number sets an ordinary property and leaves the elements alone.  (The
    upper limit 2^32 - 2 of array indices is left out: positions stay
    below the number of questions.) *)
Definition is_array_index (i : Z) : bool :=
  bool_decide (0 ≤ i)%Z.

(** [array[i] = v]: overwrite in range, grow with holes past the end. *)
Definition assign (l : list slot) (i : Z) (v : slot) : list slot :=
  if is_array_index i then
    let n := Z.to_nat i in
    if decide (n < length l) then <[n:=v]> l
    else l ++ replicate (n - length l) Hole ++ [v]
  else l.

(** [array.reduce(callback, init)], the callback receiving the
    accumulator, the element and its index; holes are not visited. *)
Fixpoint reduce_from {A : Type} (callback : A → slot → nat → A)
    (index : nat) (l : list slot) (acc : A) : A :=
  match l with
  | [] => acc
  | Hole :: l' => reduce_from callback (S index) l' acc
  | x :: l' => reduce_from callback (S index) l' (callback acc x index)
  end.

Definition reduce {A : Type} (callback : A → slot → nat → A)
    (l : list slot) (init : A) : A :=
  reduce_from callback 0 l init.

(** [x === y] on values that are [undefined], [null] or a string. *)
Definition strict_eq (x y : slot) : bool := bool_decide (x = y).

End JsArray.

(* ================================================================== *)
(** ** context/QuizContext.tsx: the reducer *)
(* ================================================================== *)

Module Reducer.
Import JsArray.
Local Open Scope Z_scope.

Inductive QuizAction :=
| START_QUIZ (payload : Difficulty)
| SET_QUESTIONS (payload : list QuizQuestion)
| SELECT_ANSWER (payload : string)
| NEXT_QUESTION
| PREVIOUS_QUESTION
| FINISH_QUIZ
| RESET_QUIZ
| SET_LOADING (payload : bool)
| SET_ERROR (payload : option string)
| DECREMENT_TIMER
| RESET_TIMER.

Definition initialState : QuizState := {|
  questions := [];
  currentQuestionIndex := 0;
  userAnswers := [];
  score := 0;
  isCompleted := false;
  difficulty := easy;
  timeLeft := 30;
  isLoading := false;
  error := None
|}.

(** Field updates, one per field the reducer writes with [{...state, f: v}]. *)
Definition with_questions (v : list QuizQuestion) (s : QuizState) :=
  {| questions := v; currentQuestionIndex := currentQuestionIndex s;
     userAnswers := userAnswers s; score := score s;
     isCompleted := isCompleted s; difficulty := difficulty s;
     timeLeft := timeLeft s; isLoading := isLoading s; error := error s |}.
Definition with_currentQuestionIndex (v : Z) (s : QuizState) :=
  {| questions := questions s; currentQuestionIndex := v;
     userAnswers := userAnswers s; score := score s;
     isCompleted := isCompleted s; difficulty := difficulty s;
     timeLeft := timeLeft s; isLoading := isLoading s; error := error s |}.
Definition with_userAnswers (v : list slot) (s : QuizState) :=
  {| questions := questions s; currentQuestionIndex := currentQuestionIndex s;
     userAnswers := v; score := score s;
     isCompleted := isCompleted s; difficulty := difficulty s;
     timeLeft := timeLeft s; isLoading := isLoading s; error := error s |}.
Definition with_score (v : Z) (s : QuizState) :=
  {| questions := questions s; currentQuestionIndex := currentQuestionIndex s;
     userAnswers := userAnswers s; score := v;
     isCompleted := isCompleted s; difficulty := difficulty s;
     timeLeft := timeLeft s; isLoading := isLoading s; error := error s |}.
Definition with_isCompleted (v : bool) (s : QuizState) :=
  {| questions := questions s; currentQuestionIndex := currentQuestionIndex s;
     userAnswers := userAnswers s; score := score s;
     isCompleted := v; difficulty := difficulty s;
     timeLeft := timeLeft s; isLoading := isLoading s; error := error s |}.
Definition with_difficulty (v : Difficulty) (s : QuizState) :=
  {| questions := questions s; currentQuestionIndex := currentQuestionIndex s;
     userAnswers := userAnswers s; score := score s;
     isCompleted := isCompleted s; difficulty := v;
     timeLeft := timeLeft s; isLoading := isLoading s; error := error s |}.
Definition with_timeLeft (v : Z) (s : QuizState) :=
  {| questions := questions s; currentQuestionIndex := currentQuestionIndex s;
     userAnswers := userAnswers s; score := score s;
     isCompleted := isCompleted s; difficulty := difficulty s;
     timeLeft := v; isLoading := isLoading s; error := error s |}.
Definition with_isLoading (v : bool) (s : QuizState) :=
  {| questions := questions s; currentQuestionIndex := currentQuestionIndex s;
     userAnswers := userAnswers s; score := score s;
     isCompleted := isCompleted s; difficulty := difficulty s;
     timeLeft := timeLeft s; isLoading := v; error := error s |}.
Definition with_error (v : option string) (s : QuizState) :=
  {| questions := questions s; currentQuestionIndex := currentQuestionIndex s;
     userAnswers := userAnswers s; score := score s;
     isCompleted := isCompleted s; difficulty := difficulty s;
     timeLeft := timeLeft s; isLoading := isLoading s; error := v |}.

(** [state.questions[index]?.answer] *)
Definition answer_at (qs : list QuizQuestion) (index : nat) : slot :=
  match qs !! index with
  | Some q => Str (answer q)
  | None => Undef
  end.

(** The callback of the [reduce] in the [FINISH_QUIZ] case. *)
Definition score_step (qs : list QuizQuestion) (acc : Z) (answer : slot)
    (index : nat) : Z :=
  if strict_eq answer (answer_at qs index) then acc + 1 else acc.

Definition quizReducer (state : QuizState) (action : QuizAction) : QuizState :=
  match action with
  | START_QUIZ payload =>
      with_isLoading true (with_difficulty payload initialState)
  | SET_QUESTIONS payload =>
      with_error None
        (with_isLoading false
           (with_userAnswers (replicate (length payload) Null)
              (with_questions payload state)))
  | SELECT_ANSWER payload =>
      let newAnswers := spread (userAnswers state) in
      let newAnswers := assign newAnswers (currentQuestionIndex state) (Str payload) in
      with_userAnswers newAnswers state
  | NEXT_QUESTION =>
      with_timeLeft 30
        (with_currentQuestionIndex
           (Z.min (currentQuestionIndex state + 1)
                  (Z.of_nat (length (questions state)) - 1))
           state)
  | PREVIOUS_QUESTION =>
      with_timeLeft 30
        (with_currentQuestionIndex
           (Z.max (currentQuestionIndex state - 1) 0) state)
  | FINISH_QUIZ =>
      let score := reduce (score_step (questions state)) (userAnswers state) 0 in
      with_isCompleted true (with_score score state)
  | RESET_QUIZ => initialState
  | SET_LOADING payload => with_isLoading payload state
  | SET_ERROR payload => with_isLoading false (with_error payload state)
  | DECREMENT_TIMER => with_timeLeft (Z.max (timeLeft state - 1) 0) state
  | RESET_TIMER => with_timeLeft 30 state
  end.

(** Running a list of actions, oldest first. *)
Definition dispatch_all (state : QuizState) (actions : list QuizAction) : QuizState :=
  foldl quizReducer state actions.

End Reducer.

(* ================================================================== *)
(** ** Promises and exceptions *)
(* ================================================================== *)

Module Js.

(** The values the program throws or sees thrown, by constructor. *)
Inductive exn :=
| Error (message : string)
| TypeError
| SyntaxError.

(** How an awaited promise settles. *)
Inductive Promise (A : Type) :=
| Resolved (a : A)
| Rejected (e : exn).
Arguments Resolved {A} a.
Arguments Rejected {A} e.

(** How a synchronous call completes.  [IllTyped] marks a run that went on
    with a value outside its declared TypeScript type (a stored array that
    is no [HighScore[]]); what JavaScript does from there depends on its
    coercions and is not part of this model. *)
Inductive completion (A : Type) :=
| Returns (a : A)
| Throws (e : exn)
| IllTyped.
Arguments Returns {A} a.
Arguments Throws {A} e.
Arguments IllTyped {A}.

(** A value of [Math.random()]: a number [numerator / denominator] that is
    at least 0 and less than 1, carried as an exact fraction. *)
Record Random := {
  numerator : Z;
  denominator : Z;
  in_unit_interval : bool_decide (0 ≤ numerator < denominator)%Z = true
}.

(** The random source: the values the coming calls of [Math.random()]
    return, in order. *)
Definition Rng := nat → Random.

Definition Math_random (rng : Rng) : Random * Rng :=
  (rng 0, λ n, rng (S n)).

(** [Math.floor(r * k)] *)
Definition Math_floor_times (r : Random) (k : Z) : Z :=
  (numerator r * k / denominator r)%Z.

End Js.

(* ================================================================== *)
(** ** services/quizApi.ts *)
(* ================================================================== *)

Module Api.
Import Js.

Definition API_BASE_URL : string := "https://opentdb.com/api.php".

(** The text of a [Difficulty] value, as a template literal interpolates it. *)
Definition difficulty_text (d : Difficulty) : string :=
  match d with
  | easy => "easy"
  | medium => "medium"
  | hard => "hard"
  end.

(** [[shuffled[i], shuffled[j]] = [shuffled[j], shuffled[i]]].  In the loop
    of [shuffleArray] both indices lie inside the array
    ([shuffle_loop_index_in_range]): the two reads find an element and the
    two writes replace one.  The other case, where JavaScript would read
    [undefined] and grow the array, does not arise there and leaves the
    array as it is. *)
Definition swap {T : Type} (shuffled : list T) (i j : nat) : list T :=
  match shuffled !! i, shuffled !! j with
  | Some x, Some y => <[j:=x]> (<[i:=y]> shuffled)
  | _, _ => shuffled
  end.

(** The index the loop body draws: [Math.floor(Math.random() * (i + 1))]. *)
Definition draw_index (r : Random) (i : nat) : nat :=
  Z.to_nat (Math_floor_times r (Z.of_nat i + 1)).

(** [for (let i = shuffled.length - 1; i > 0; i--)] *)
Fixpoint shuffle_loop {T : Type} (i : nat) (shuffled : list T) (rng : Rng)
    : list T * Rng :=
  match i with
  | O => (shuffled, rng)
  | S i' =>
      let '(r, rng) := Math_random rng in
      let j := draw_index r i in
      shuffle_loop i' (swap shuffled i j) rng
  end.

Definition shuffleArray {T : Type} (array : list T) (rng : Rng) : list T * Rng :=
  let shuffled := array in
  shuffle_loop (length shuffled - 1) shuffled rng.

(** [array.map((x, index) => ...)] for a callback that draws random numbers:
    the elements are visited in index order. *)
Fixpoint map_from {A B : Type} (callback : A → nat → Rng → B * Rng)
    (index : nat) (l : list A) (rng : Rng) : list B * Rng :=
  match l with
  | [] => ([], rng)
  | x :: l' =>
      let '(y, rng) := callback x index rng in
      let '(ys, rng) := map_from callback (S index) l' rng in
      (y :: ys, rng)
  end.

(** What the two awaits of [fetchQuizQuestions] can yield: [fetch(url)]
    rejects or resolves with a response, whose [json()] in turn rejects or
    resolves with the decoded body. *)
Record Response := {
  ok : bool;
  json : Promise ApiResponse
}.

Section QuizApi.

(** [decodeHtmlEntities] hands the text to the browser's HTML parser
    (a [textarea] element); the browser's decoding is a parameter here. *)
Variable decodeHtmlEntities : string → string.

(** The network: what [fetch] answers for a URL. *)
Variable fetch : string → Promise Response.

(** The callback of [data.results.map]. *)
Definition normalize (apiQuestion : ApiQuestion) (index : nat) (rng : Rng)
    : QuizQuestion * Rng :=
  let decodedQuestion := decodeHtmlEntities (api_question apiQuestion) in
  let decodedCorrectAnswer := decodeHtmlEntities (correct_answer apiQuestion) in
  let decodedIncorrectAnswers := decodeHtmlEntities <$> incorrect_answers apiQuestion in
  let allOptions := decodedCorrectAnswer :: decodedIncorrectAnswers in
  let '(shuffledOptions, rng) := shuffleArray allOptions rng in
  ({| q_id := "question-" +:+ pretty index;
      question := decodedQuestion;
      options := shuffledOptions;
      answer := decodedCorrectAnswer;
      category := Some (api_category apiQuestion);
      q_difficulty := Some (api_difficulty apiQuestion);
      q_type := Some (api_type apiQuestion) |}, rng).

(** The [catch] block logs and rethrows, so every rejection below is the
    rejection of the returned promise. *)
Definition fetchQuizQuestions (difficulty : Difficulty) (rng : Rng)
    : Promise (list QuizQuestion) * Rng :=
  match fetch (API_BASE_URL +:+ "?amount=10&difficulty=" +:+ difficulty_text difficulty) with
  | Rejected e => (Rejected e, rng)
  | Resolved response =>
      if negb (ok response) then
        (Rejected (Error "Failed to fetch questions"), rng)
      else
        match json response with
        | Rejected e => (Rejected e, rng)
        | Resolved data =>
            if negb (response_code data =? 0)%Z then
              (Rejected (Error "No questions available for this difficulty"), rng)
            else
              let '(qs, rng) := map_from normalize 0 (results data) rng in
              (Resolved qs, rng)
        end
  end.

End QuizApi.

End Api.

(* ================================================================== *)
(** ** JSON.parse and JSON.stringify *)
(* ================================================================== *)

(** The platform's JSON codec, written out as a lexer (one character at a
    time) and a pushdown parser (one token at a time) for the JSON grammar.
    Texts are byte strings here, so an escape [\uXXXX] above [00ff] has no
    counterpart and is refused; a number written with a fraction or an
    exponent is kept as its literal ([JDec]). *)
Module Json.
#[local] Set Warnings "-register-all".
Import Js.

(** A parsed value.  An object keeps its members as they are written (the
    merging of duplicate keys and the reordering of integer-like keys that
    JavaScript objects do are left out; a ledger has neither). *)
Inductive json :=
| JNull
| JBool (b : bool)
| JNum (n : Z)
| JDec (literal : string)
| JStr (s : string)
| JArr (items : list json)
| JObj (members : list (string * json)).

Inductive token :=
| TLBrace | TRBrace | TLBracket | TRBracket | TComma | TColon
| TScalar (v : json).

Definition dquote : ascii := ascii_of_N 34.
Definition backslash : ascii := ascii_of_N 92.

Definition is_whitespace (c : ascii) : bool :=
  match N_of_ascii c with
  | 32 | 9 | 10 | 13 => true
  | _ => false
  end%N.

Definition digit_value (c : ascii) : option N :=
  let n := N_of_ascii c in
  if ((48 <=? n) && (n <=? 57))%N then Some (n - 48)%N else None.

Definition hex_value (c : ascii) : option N :=
  let n := N_of_ascii c in
  if ((48 <=? n) && (n <=? 57))%N then Some (n - 48)%N
  else if ((97 <=? n) && (n <=? 102))%N then Some (n - 87)%N
  else if ((65 <=? n) && (n <=? 70))%N then Some (n - 55)%N
  else None.

Definition is_exponent_mark (c : ascii) : bool :=
  match c with
  | "e" | "E" => true
  | _ => false
  end%char.

Definition snoc (s : string) (c : ascii) : string := s +:+ String c "".

(** Where the lexer is inside the current token. *)
Inductive lex_mode :=
| LStart
| LString (acc : string)
| LEscape (acc : string)
| LUnicode (acc : string) (digits : list N)
| LMinus
| LZero (neg : bool)
| LInt (neg : bool) (n : N)
| LFrac0 (literal : string)
| LFrac (literal : string)
| LExp0 (literal : string)
| LExpSign (literal : string)
| LExp (literal : string)
| LWord (rest : string) (v : json)
| LError.

Definition lex_state := (lex_mode * list token)%type.

Definition start_step (toks : list token) (c : ascii) : lex_state :=
  if is_whitespace c then (LStart, toks)
  else if Ascii.eqb c dquote then (LString "", toks)
  else
    match c with
    | "{" => (LStart, toks ++ [TLBrace])
    | "}" => (LStart, toks ++ [TRBrace])
    | "[" => (LStart, toks ++ [TLBracket])
    | "]" => (LStart, toks ++ [TRBracket])
    | "," => (LStart, toks ++ [TComma])
    | ":" => (LStart, toks ++ [TColon])
    | "-" => (LMinus, toks)
    | "0" => (LZero false, toks)
    | "t" => (LWord "rue" (JBool true), toks)
    | "f" => (LWord "alse" (JBool false), toks)
    | "n" => (LWord "ull" JNull, toks)
    | _ =>
        match digit_value c with
        | Some d => (LInt false d, toks)
        | None => (LError, toks)
        end
    end%char.

Definition signed (neg : bool) (n : N) : Z :=
  if neg then (- Z.of_N n)%Z else Z.of_N n.

Definition int_literal (neg : bool) (n : N) : string :=
  (if neg then "-" else "") +:+ pretty n.

(** The tokens once a pending number is closed; [None] inside anything
    that cannot end here. *)
Definition flush (st : lex_state) : option (list token) :=
  let '(mode, toks) := st in
  match mode with
  | LStart => Some toks
  | LZero neg => Some (toks ++ [TScalar (JNum 0)])
  | LInt neg n => Some (toks ++ [TScalar (JNum (signed neg n))])
  | LFrac literal | LExp literal => Some (toks ++ [TScalar (JDec literal)])
  | _ => None
  end.

Definition unescape (c : ascii) : option ascii :=
  if Ascii.eqb c dquote then Some dquote
  else if Ascii.eqb c backslash then Some backslash
  else
    match c with
    | "/" => Some "/"
    | "b" => Some (ascii_of_N 8)
    | "f" => Some (ascii_of_N 12)
    | "n" => Some (ascii_of_N 10)
    | "r" => Some (ascii_of_N 13)
    | "t" => Some (ascii_of_N 9)
    | _ => None
    end%char.

Definition lex_step (st : lex_state) (c : ascii) : lex_state :=
  let '(mode, toks) := st in
  let delimit :=
    match flush st with
    | Some toks' => start_step toks' c
    | None => (LError, toks)
    end in
  let fraction_or_exponent (literal : string) :=
    if Ascii.eqb c "." then (LFrac0 (snoc literal c), toks)
    else if is_exponent_mark c then (LExp0 (snoc literal c), toks)
    else delimit in
  match mode with
  | LStart => start_step toks c
  | LString acc =>
      if Ascii.eqb c dquote then (LStart, toks ++ [TScalar (JStr acc)])
      else if Ascii.eqb c backslash then (LEscape acc, toks)
      else if (N_of_ascii c <? 32)%N then (LError, toks)
      else (LString (snoc acc c), toks)
  | LEscape acc =>
      match unescape c with
      | Some c' => (LString (snoc acc c'), toks)
      | None => if Ascii.eqb c "u" then (LUnicode acc [], toks) else (LError, toks)
      end
  | LUnicode acc digits =>
      match hex_value c with
      | Some h =>
          let digits := digits ++ [h] in
          if decide (length digits = 4) then
            let code := foldl (λ a d, 16 * a + d)%N 0%N digits in
            if (code <? 256)%N then (LString (snoc acc (ascii_of_N code)), toks)
            else (LError, toks)
          else (LUnicode acc digits, toks)
      | None => (LError, toks)
      end
  | LMinus =>
      match digit_value c with
      | Some 0%N => (LZero true, toks)
      | Some d => (LInt true d, toks)
      | None => (LError, toks)
      end
  | LZero neg =>
      match digit_value c with
      | Some _ => (LError, toks)
      | None => fraction_or_exponent (int_literal neg 0)
      end
  | LInt neg n =>
      match digit_value c with
      | Some d => (LInt neg (10 * n + d), toks)
      | None => fraction_or_exponent (int_literal neg n)
      end
  | LFrac0 literal =>
      match digit_value c with
      | Some _ => (LFrac (snoc literal c), toks)
      | None => (LError, toks)
      end
  | LFrac literal =>
      match digit_value c with
      | Some _ => (LFrac (snoc literal c), toks)
      | None =>
          if is_exponent_mark c then (LExp0 (snoc literal c), toks) else delimit
      end
  | LExp0 literal =>
      match digit_value c with
      | Some _ => (LExp (snoc literal c), toks)
      | None =>
          if Ascii.eqb c "+" || Ascii.eqb c "-" then (LExpSign (snoc literal c), toks)
          else (LError, toks)
      end
  | LExpSign literal =>
      match digit_value c with
      | Some _ => (LExp (snoc literal c), toks)
      | None => (LError, toks)
      end
  | LExp literal =>
      match digit_value c with
      | Some _ => (LExp (snoc literal c), toks)
      | None => delimit
      end
  | LWord rest v =>
      match rest with
      | String c' rest' =>
          if Ascii.eqb c c' then
            match rest' with
            | EmptyString => (LStart, toks ++ [TScalar v])
            | _ => (LWord rest' v, toks)
            end
          else (LError, toks)
      | EmptyString => (LError, toks)
      end
  | LError => (LError, toks)
  end.

Fixpoint lex_run (text : string) (st : lex_state) : lex_state :=
  match text with
  | EmptyString => st
  | String c text' => lex_run text' (lex_step st c)
  end.

Definition lex (text : string) : option (list token) :=
  flush (lex_run text (LStart, [])).

(** The parser's stack: the containers that are still open. *)
Inductive frame :=
| FArray (items : list json)
| FObject (members : list (string * json))
| FKey (key : string).

Inductive parse_mode :=
| PValue
| PArrayStart
| PArrayNext
| PObjectStart
| PObjectKey
| PObjectColon (key : string)
| PObjectNext
| PDone (v : json)
| PError.

Definition parse_state := (parse_mode * list frame)%type.

(** A value is complete: hand it to the innermost open container. *)
Definition deliver (v : json) (stack : list frame) : parse_state :=
  match stack with
  | [] => (PDone v, [])
  | FArray items :: stack' => (PArrayNext, FArray (items ++ [v]) :: stack')
  | FKey key :: FObject members :: stack' =>
      (PObjectNext, FObject (members ++ [(key, v)]) :: stack')
  | _ => (PError, stack)
  end.

Definition begin_value (tok : token) (stack : list frame) : parse_state :=
  match tok with
  | TScalar v => deliver v stack
  | TLBracket => (PArrayStart, FArray [] :: stack)
  | TLBrace => (PObjectStart, FObject [] :: stack)
  | _ => (PError, stack)
  end.

Definition close_array (stack : list frame) : parse_state :=
  match stack with
  | FArray items :: stack' => deliver (JArr items) stack'
  | _ => (PError, stack)
  end.

Definition close_object (stack : list frame) : parse_state :=
  match stack with
  | FObject members :: stack' => deliver (JObj members) stack'
  | _ => (PError, stack)
  end.

Definition parse_step (st : parse_state) (tok : token) : parse_state :=
  let '(mode, stack) := st in
  match mode, tok with
  | PValue, _ => begin_value tok stack
  | PArrayStart, TRBracket => close_array stack
  | PArrayStart, _ => begin_value tok stack
  | PArrayNext, TComma => (PValue, stack)
  | PArrayNext, TRBracket => close_array stack
  | PObjectStart, TRBrace => close_object stack
  | PObjectStart, TScalar (JStr key) => (PObjectColon key, stack)
  | PObjectKey, TScalar (JStr key) => (PObjectColon key, stack)
  | PObjectColon key, TColon => (PValue, FKey key :: stack)
  | PObjectNext, TComma => (PObjectKey, stack)
  | PObjectNext, TRBrace => close_object stack
  | _, _ => (PError, stack)
  end.

Definition parse_tokens (toks : list token) : option json :=
  match foldl parse_step (PValue, []) toks with
  | (PDone v, _) => Some v
  | _ => None
  end.

(** [JSON.parse(text)]: the value, or a [SyntaxError]. *)
Definition JSON_parse (text : string) : completion json :=
  match lex text ≫= parse_tokens with
  | Some v => Returns v
  | None => Throws SyntaxError
  end.

Definition hex_digit (n : N) : ascii :=
  if (n <? 10)%N then ascii_of_N (48 + n) else ascii_of_N (87 + n).

(** How [JSON.stringify] writes one character of a string. *)
Definition escape_char (c : ascii) : string :=
  if Ascii.eqb c dquote then String backslash (String dquote "")
  else if Ascii.eqb c backslash then String backslash (String backslash "")
  else
    match N_of_ascii c with
    | 8 => String backslash "b"
    | 9 => String backslash "t"
    | 10 => String backslash "n"
    | 12 => String backslash "f"
    | 13 => String backslash "r"
    | n =>
        if (n <? 32)%N then
          String backslash
            ("u00" +:+ String (hex_digit (n / 16)) (String (hex_digit (n mod 16)) ""))
        else String c ""
    end%N.

Fixpoint escape (s : string) : string :=
  match s with
  | EmptyString => ""
  | String c s' => escape_char c +:+ escape s'
  end.

Definition quote (s : string) : string :=
  String dquote (escape s +:+ String dquote "").

(** [JSON.stringify(v)] without indentation.  Integers are written in
    plain decimal, as JavaScript does below 10^21; a [JDec] is written back
    as it was read. *)
Fixpoint JSON_stringify (v : json) : string :=
  match v with
  | JNull => "null"
  | JBool true => "true"
  | JBool false => "false"
  | JNum n => pretty n
  | JDec literal => literal
  | JStr s => quote s
  | JArr items => "[" +:+ String.concat "," (JSON_stringify <$> items) +:+ "]"
  | JObj members =>
      "{" +:+ String.concat ","
                ((λ m, quote (fst m) +:+ ":" +:+ JSON_stringify (snd m)) <$> members)
          +:+ "}"
  end.

End Json.

(* ================================================================== *)
(** ** context/QuizContext.tsx: the high-score ledger *)
(* ================================================================== *)

Module Ledger.
Import Js Json.
Local Open Scope Z_scope.

(** [localStorage]: text stored under text keys. *)
Abbreviation Storage := (gmap string string).

Definition getItem (key : string) (localStorage : Storage) : option string :=
  localStorage !! key.

(** [setItem] on a storage that has room (a full one makes it throw). *)
Definition setItem (key value : string) (localStorage : Storage) : Storage :=
  <[key:=value]> localStorage.

(** A string in a condition: only the empty string is falsy. *)
Definition truthy (s : string) : bool :=
  match s with
  | EmptyString => false
  | _ => true
  end.

(** [getHighScores]: the parsed value goes out under the type
    [HighScore[]] unchecked. *)
Definition getHighScores (localStorage : Storage) : completion json :=
  match getItem "quiz-high-scores" localStorage with
  | Some saved => if truthy saved then JSON_parse saved else Returns (JArr [])
  | None => Returns (JArr [])
  end.

(** The JSON object of a [HighScore], properties in the order the object
    literal of [saveHighScore] lists them. *)
Definition HighScore_to_json (h : HighScore) : json :=
  JObj [("score", JNum (hs_score h));
        ("totalQuestions", JNum (hs_totalQuestions h));
        ("difficulty", JStr (Api.difficulty_text (hs_difficulty h)));
        ("date", JStr (hs_date h))].

Definition Difficulty_of_text (s : string) : option Difficulty :=
  if decide (s = "easy") then Some easy
  else if decide (s = "medium") then Some medium
  else if decide (s = "hard") then Some hard
  else None.

(** Reading a parsed value at the type [HighScore]. *)
Definition json_to_HighScore (v : json) : option HighScore :=
  match v with
  | JObj [(k1, JNum s); (k2, JNum t); (k3, JStr d); (k4, JStr date)] =>
      if decide (k1 = "score" ∧ k2 = "totalQuestions"
                 ∧ k3 = "difficulty" ∧ k4 = "date") then
        d' ← Difficulty_of_text d;
        Some {| hs_score := s; hs_totalQuestions := t;
                hs_difficulty := d'; hs_date := date |}
      else None
  | _ => None
  end.

(** [array.sort(compare)]: the sort is stable, and for a comparator that
    orders its arguments consistently the result is the one of inserting
    each element before the first one it must precede. *)
Fixpoint sort_insert {A : Type} (compare : A → A → Z) (x : A) (sorted : list A)
    : list A :=
  match sorted with
  | [] => [x]
  | y :: sorted' =>
      if 0 <? compare x y then y :: sort_insert compare x sorted'
      else x :: y :: sorted'
  end.

Definition Array_sort {A : Type} (compare : A → A → Z) (l : list A) : list A :=
  foldr (sort_insert compare) [] l.

(** [saveHighScore], for the session [state]; [now] is the text of
    [new Date().toISOString()] at the call. *)
Definition saveHighScore (state : QuizState) (now : string)
    (localStorage : Storage) : completion Storage :=
  if isCompleted state then
    match getHighScores localStorage with
    | Returns (JArr items) =>
        match mapM json_to_HighScore items with
        | Some highScores =>
            let newScore :=
              {| hs_score := score state;
                 hs_totalQuestions := Z.of_nat (length (questions state));
                 hs_difficulty := difficulty state;
                 hs_date := now |} in
            let highScores := highScores ++ [newScore] in
            let highScores :=
              Array_sort (λ a b, hs_score b - hs_score a) highScores in
            let topScores := take 5 highScores in
            Returns
              (setItem "quiz-high-scores"
                 (JSON_stringify (JArr (HighScore_to_json <$> topScores)))
                 localStorage)
        | None => IllTyped
        end
    | Returns _ => Throws TypeError
    | Throws e => Throws e
    | IllTyped => IllTyped
    end
  else Returns localStorage.

(** A run of ledger writes, one per session and clock reading. *)
Fixpoint save_all (writes : list (QuizState * string)) (localStorage : Storage)
    : completion Storage :=
  match writes with
  | [] => Returns localStorage
  | (state, now) :: writes' =>
      match saveHighScore state now localStorage with
      | Returns localStorage' => save_all writes' localStorage'
      | Throws e => Throws e
      | IllTyped => IllTyped
      end
  end.

End Ledger.

(* ================================================================== *)
(** ** The notions the specification speaks in *)
(* ================================================================== *)

Module Spec.
Import Js Json Reducer Ledger.
Local Open Scope Z_scope.

(** Index [i] holds the correct answer: [ans[i]] is the text of
    [qs[i].answer]. *)
Definition correct_at (qs : list QuizQuestion) (ans : list slot) (i : nat) : bool :=
  match ans !! i, qs !! i with
  | Some (Str a), Some q => bool_decide (a = answer q)
  | _, _ => false
  end.

(** The indices of the answer list that hold the correct answer. *)
Definition correct_indices (qs : list QuizQuestion) (ans : list slot) : list nat :=
  filter (λ i, correct_at qs ans i) (seq 0 (length ans)).

Definition count_correct (qs : list QuizQuestion) (ans : list slot) : Z :=
  Z.of_nat (length (correct_indices qs ans)).

(** A session in progress: questions are loaded with one answer slot each,
    the position points at one of them, and the quiz is not finished. *)
Definition InProgress (s : QuizState) : Prop :=
  isCompleted s = false
  ∧ length (userAnswers s) = length (questions s)
  ∧ 0 ≤ currentQuestionIndex s < Z.of_nat (length (questions s)).

(** The actions the quiz page dispatches while a session is in progress. *)
Definition in_progress_action (a : QuizAction) : bool :=
  match a with
  | SELECT_ANSWER _ | NEXT_QUESTION | PREVIOUS_QUESTION
  | DECREMENT_TIMER | RESET_TIMER => true
  | _ => false
  end.

(** The actions that are neither [START_QUIZ] nor [RESET_QUIZ]. *)
Definition keeps_session (a : QuizAction) : bool :=
  match a with
  | START_QUIZ _ | RESET_QUIZ => false
  | _ => true
  end.

(** The actions that never write [userAnswers]. *)
Definition leaves_answers (a : QuizAction) : bool :=
  match a with
  | NEXT_QUESTION | PREVIOUS_QUESTION | FINISH_QUIZ | SET_LOADING _
  | SET_ERROR _ | DECREMENT_TIMER | RESET_TIMER => true
  | _ => false
  end.

(** Descending by score. *)
Definition sorted_desc (l : list HighScore) : Prop :=
  ∀ i j a b, (i < j)%nat → l !! i = Some a → l !! j = Some b →
    hs_score b ≤ hs_score a.

(** The data-model invariant of the ledger: at most five entries, in
    descending order of score. *)
Definition ledger_ok (l : list HighScore) : Prop :=
  (length l ≤ 5)%nat ∧ sorted_desc l.

(** The entry [saveHighScore] builds for a session. *)
Definition entry_of (state : QuizState) (now : string) : HighScore :=
  {| hs_score := score state;
     hs_totalQuestions := Z.of_nat (length (questions state));
     hs_difficulty := difficulty state;
     hs_date := now |}.

(** The comparator of [saveHighScore]. *)
Definition by_score : HighScore → HighScore → Z :=
  λ a b, hs_score b - hs_score a.

(** Descending order, entry by entry. *)
Definition desc (a b : HighScore) : Prop := hs_score b ≤ hs_score a.

(** The ledger after a write: the old entries and the new one, sorted,
    cut to five. *)
Definition written (l : list HighScore) (h : HighScore) : list HighScore :=
  take 5 (Array_sort by_score (l ++ [h])).

(** The JSON array of a ledger, and the tokens of its text. *)
Definition ledger_json (l : list HighScore) : json :=
  JArr (HighScore_to_json <$> l).

Definition ledger_items_text (l : list HighScore) : string :=
  String.concat "," (JSON_stringify <$> (HighScore_to_json <$> l)).

Definition HighScore_tokens (h : HighScore) : list token :=
  [TLBrace;
   TScalar (JStr "score"); TColon; TScalar (JNum (hs_score h)); TComma;
   TScalar (JStr "totalQuestions"); TColon;
   TScalar (JNum (hs_totalQuestions h)); TComma;
   TScalar (JStr "difficulty"); TColon;
   TScalar (JStr (Api.difficulty_text (hs_difficulty h))); TComma;
   TScalar (JStr "date"); TColon; TScalar (JStr (hs_date h));
   TRBrace].

Fixpoint ledger_tokens (l : list HighScore) : list token :=
  match l with
  | [] => []
  | [h] => HighScore_tokens h
  | h :: l' => HighScore_tokens h ++ TComma :: ledger_tokens l'
  end.

(** Where the lexer stands before the digits of a number. *)
Definition start_mode (neg : bool) : lex_mode := if neg then LMinus else LStart.

(** A character that closes an integer literal. *)
Definition ends_number (c : ascii) : Prop :=
  digit_value c = None ∧ Ascii.eqb c "." = false ∧ is_exponent_mark c = false.

(** The ledger a storage holds: the entries [getHighScores] reads back,
    when they are [HighScore]s. *)
Definition stored_ledger (localStorage : Storage) : option (list HighScore) :=
  match getHighScores localStorage with
  | Returns (JArr items) => mapM json_to_HighScore items
  | _ => None
  end.

(** The index exchange of a swap: reading the swapped array at [k] is
    reading the old one at [transpose i j k]. *)
Definition transpose (i j k : nat) : nat :=
  if decide (k = i) then j else if decide (k = j) then i else k.

(** The option texts of a raw record after decoding, the correct one first. *)
Definition decoded_options (decodeHtmlEntities : string → string)
    (raw : ApiQuestion) : list string :=
  decodeHtmlEntities (correct_answer raw)
  :: (decodeHtmlEntities <$> incorrect_answers raw).

(** How often [x] occurs in [l]. *)
Definition occurrences (x : string) (l : list string) : nat :=
  length (filter (λ o, o = x) l).

(** The URL [fetchQuizQuestions] requests. *)
Definition request_url (difficulty : Difficulty) : string :=
  Api.API_BASE_URL +:+ "?amount=10&difficulty=" +:+ Api.difficulty_text difficulty.

(** The ledger in the storage after a run of writes. *)
Definition ledger_after (writes : list (QuizState * string))
    (localStorage : Storage) : option (list HighScore) :=
  match save_all writes localStorage with
  | Returns localStorage' => stored_ledger localStorage'
  | _ => None
  end.

(** A normalized question for the raw record at position [index]: the
    positional identifier, the decoded question text, the decoded correct
    answer, the decoded correct and incorrect answers in some order as
    options, and the metadata of the record. *)
Definition normalized (decodeHtmlEntities : string → string)
    (raw : ApiQuestion) (index : nat) (q : QuizQuestion) : Prop :=
  q_id q = "question-" +:+ pretty index
  ∧ question q = decodeHtmlEntities (api_question raw)
  ∧ answer q = decodeHtmlEntities (correct_answer raw)
  ∧ options q ≡ₚ decoded_options decodeHtmlEntities raw
  ∧ category q = Some (api_category raw)
  ∧ q_difficulty q = Some (api_difficulty raw)
  ∧ q_type q = Some (api_type raw).

(** The three ways the fetch can fail according to the specification: the
    transport call fails (the promise of [fetch] is rejected), the HTTP
    response is not a success, or the status code of the body is not 0. *)
Definition transport_fails (fetch : string → Promise Api.Response) (url : string) : Prop :=
  match fetch url with
  | Rejected _ => True
  | Resolved _ => False
  end.

(** A fourth way, which the code has as well: the request went through
    and the response is a success, but reading its body as JSON is
    rejected. *)
Definition body_read_fails (fetch : string → Promise Api.Response) (url : string) : Prop :=
  match fetch url with
  | Resolved response =>
      Api.ok response = true
      ∧ match Api.json response with
        | Rejected _ => True
        | Resolved _ => False
        end
  | Rejected _ => False
  end.

Definition http_not_ok (fetch : string → Promise Api.Response) (url : string) : Prop :=
  match fetch url with
  | Resolved response => Api.ok response = false
  | Rejected _ => False
  end.

Definition status_not_zero (fetch : string → Promise Api.Response) (url : string) : Prop :=
  match fetch url with
  | Resolved response =>
      match Api.json response with
      | Resolved data => response_code data ≠ 0
      | Rejected _ => False
      end
  | Rejected _ => False
  end.

End Spec.

(* ================================================================== *)
(** ** Sample data *)
(* ================================================================== *)

Module Examples.
Import Js Json Reducer Ledger.
Local Open Scope Z_scope.

Definition mk_question (n : nat) (text right : string) (all : list string)
    : QuizQuestion :=
  {| q_id := "question-" +:+ pretty n; question := text; options := all;
     answer := right; category := Some "Geography";
     q_difficulty := Some "easy"; q_type := Some "multiple" |}.

Definition capital_of_france : QuizQuestion :=
  mk_question 0 "Capital of France?" "Paris" ["Rome"; "Paris"; "Oslo"; "Bern"].
Definition capital_of_italy : QuizQuestion :=
  mk_question 1 "Capital of Italy?" "Rome" ["Rome"; "Paris"; "Oslo"; "Bern"].
Definition capital_of_norway : QuizQuestion :=
  mk_question 2 "Capital of Norway?" "Oslo" ["Bern"; "Oslo"; "Rome"; "Paris"].

Definition three_questions : list QuizQuestion :=
  [capital_of_france; capital_of_italy; capital_of_norway].

Definition ten_questions : list QuizQuestion :=
  three_questions ++ three_questions ++ three_questions ++ [capital_of_france].

(** One right answer, one question skipped, one wrong answer. *)
Definition answered_session : QuizState :=
  dispatch_all initialState
    [START_QUIZ easy; SET_QUESTIONS three_questions;
     SELECT_ANSWER "Paris"; NEXT_QUESTION; NEXT_QUESTION; SELECT_ANSWER "Bern"].

Definition completed_session : QuizState :=
  quizReducer answered_session FINISH_QUIZ.

(** A random source: the fractions 0/7, 1/7, ..., 6/7, 0/7, ... *)
Definition sample_rng : Rng := λ n,
  {| numerator := Z.of_nat n mod 7; denominator := 7;
     in_unit_interval :=
       bool_decide_eq_true_2 _ (Z.mod_pos_bound (Z.of_nat n) 7 eq_refl) |}.

Definition mk_record (text right : string) (wrong : list string) : ApiQuestion :=
  {| api_question := text; correct_answer := right; incorrect_answers := wrong;
     api_category := "Geography"; api_difficulty := "easy";
     api_type := "multiple" |}.

Definition three_records : list ApiQuestion :=
  [mk_record "Capital of France?" "Paris" ["Rome"; "Oslo"; "Bern"];
   mk_record "Capital of Italy?" "Rome" ["Paris"; "Oslo"; "Bern"];
   mk_record "Is Oslo in Norway?" "True" ["False"]].

Definition ten_records : list ApiQuestion :=
  three_records ++ three_records ++ three_records
  ++ [mk_record "Capital of Norway?" "Oslo" ["Rome"; "Paris"; "Bern"]].

(** A source that answers every request with HTTP success, status code 0
    and the given records. *)
Definition source_with (records : list ApiQuestion)
    : string → Promise Api.Response :=
  λ _, Resolved {| Api.ok := true;
                   Api.json := Resolved {| response_code := 0;
                                           results := records |} |}.

(** A source whose answer is HTTP 200 with status code 1 in the body. *)
Definition source_without_questions : string → Promise Api.Response :=
  λ _, Resolved {| Api.ok := true;
                   Api.json := Resolved {| response_code := 1;
                                           results := [] |} |}.

(** A source whose answer is HTTP 200 with a body that is not JSON: the
    request succeeds, [json()] is rejected with the parser's error. *)
Definition source_with_unreadable_body : string → Promise Api.Response :=
  λ _, Resolved {| Api.ok := true; Api.json := Rejected SyntaxError |}.

(** No decoding at all, for texts without entities. *)
Definition no_entities : string → string := λ text, text.

(** A session on [three_questions] that gives the listed answers in order
    and finishes. *)
Definition session_answering (d : Difficulty) (answers : list string) : QuizState :=
  quizReducer
    (dispatch_all initialState
       ([START_QUIZ d; SET_QUESTIONS three_questions]
        ++ (answers ≫= λ a, [SELECT_ANSWER a; NEXT_QUESTION])))
    FINISH_QUIZ.

(** Seven finished sessions and one unfinished, with the clock readings of
    their writes. *)
Definition sample_writes : list (QuizState * string) :=
  [(session_answering easy ["Paris"; "Bern"; "Bern"], "2024-05-01T10:00:00.000Z");
   (session_answering hard ["Paris"; "Rome"; "Oslo"], "2024-05-01T10:05:00.000Z");
   (session_answering easy ["Bern"], "2024-05-01T10:10:00.000Z");
   (answered_session, "2024-05-01T10:12:00.000Z");
   (session_answering medium ["Paris"; "Rome"], "2024-05-01T10:15:00.000Z");
   (session_answering easy ["Paris"; "Rome"; "Oslo"], "2024-05-02T09:00:00.000Z");
   (session_answering hard ["Oslo"; "Rome"], "2024-05-02T09:30:00.000Z");
   (session_answering medium ["Paris"; "Rome"; "Bern"], "2024-05-03T18:45:00.000Z")].

Definition sample_ledger : list HighScore :=
  [{| hs_score := 9; hs_totalQuestions := 10; hs_difficulty := hard;
      hs_date := "2024-05-01T10:05:00.000Z" |};
   {| hs_score := 4; hs_totalQuestions := 10; hs_difficulty := easy;
      hs_date := "2024-04-30T08:00:00.000Z" |}].

(** A storage whose ledger key holds the text of [sample_ledger]. *)
Definition storage_with_ledger : Storage :=
  setItem "quiz-high-scores" (JSON_stringify (Spec.ledger_json sample_ledger))
    (setItem "theme" "dark" ∅).

(** A storage whose ledger key holds a text that is not JSON: what
    [setItem] stores for an object handed over without [JSON.stringify]. *)
Definition storage_with_corrupt_ledger : Storage :=
  setItem "quiz-high-scores" "[object Object]" (setItem "theme" "dark" ∅).

End Examples.

(* ================================================================== *)
(** * Properties *)
(* ================================================================== *)

(* ================================================================== *)
(** ** The reducer *)
(* ================================================================== *)

Module ReducerProps.
Import JsArray Reducer Spec Examples.
Local Open Scope Z_scope.

Lemma filter_ext_in {A : Type} (P Q : A → Prop)
    `{∀ x, Decision (P x)} `{∀ x, Decision (Q x)} (l : list A) :
  (∀ x, x ∈ l → (P x ↔ Q x)) → filter P l = filter Q l.
Proof.
  induction l as [|x l IH]; intros Hext; [done|].
  rewrite !filter_cons.
  assert (P x ↔ Q x) as Hx by (apply Hext; left).
  rewrite IH by (intros y Hy; apply Hext; by right).
  destruct (decide (P x)), (decide (Q x)); tauto.
Qed.

Lemma reduce_from_snoc {A : Type} (f : A → slot → nat → A) (l : list slot)
    (x : slot) (k : nat) (acc : A) :
  reduce_from f k (l ++ [x]) acc =
    match x with
    | Hole => reduce_from f k l acc
    | _ => f (reduce_from f k l acc) x (k + length l)%nat
    end.
Proof.
  revert k acc. induction l as [|y l IH]; intros k acc; simpl.
  - rewrite Nat.add_0_r. by destruct x.
  - replace (k + S (length l))%nat with (S k + length l)%nat by lia.
    destruct y; apply IH.
Qed.

Lemma correct_at_snoc_old qs ans x i :
  (i < length ans)%nat → correct_at qs (ans ++ [x]) i = correct_at qs ans i.
Proof. intros Hi. unfold correct_at. by rewrite lookup_app_l. Qed.

Lemma correct_indices_snoc qs ans x :
  correct_indices qs (ans ++ [x]) =
    correct_indices qs ans
    ++ (if correct_at qs (ans ++ [x]) (length ans) then [length ans] else []).
Proof.
  unfold correct_indices. rewrite length_app, Nat.add_1_r, seq_S, filter_app.
  simpl. f_equal.
  - apply filter_ext_in. intros i Hi. apply elem_of_seq in Hi.
    rewrite correct_at_snoc_old by lia. done.
  - rewrite filter_cons, filter_nil.
    destruct (decide _) as [Hc|Hc]; destruct (correct_at _ _ _); naive_solver.
Qed.

(** The reduce of [FINISH_QUIZ] counts exactly the correct indices, as long
    as no answer slot lies beyond the last question. *)
Lemma reduce_score_count qs ans :
  (length ans ≤ length qs)%nat →
  reduce (score_step qs) ans 0 = count_correct qs ans.
Proof.
  unfold reduce, count_correct.
  induction ans as [|x ans IH] using rev_ind; intros Hlen; [done|].
  rewrite length_app in Hlen. simpl in Hlen.
  rewrite reduce_from_snoc, correct_indices_snoc, IH by lia. simpl.
  destruct (lookup_lt_is_Some_2 qs (length ans)) as [q Hq]; [lia|].
  unfold correct_at, score_step, answer_at, strict_eq.
  rewrite lookup_app_r, Nat.sub_diag, Hq by lia. simpl.
  destruct x as [| | |a]; simpl; rewrite ?app_nil_r; try done.
  destruct (decide (a = answer q)) as [->|Hne].
  - rewrite !bool_decide_eq_true_2 by done. rewrite length_app. simpl. lia.
  - rewrite !bool_decide_eq_false_2 by congruence. by rewrite app_nil_r.
Qed.

(** The flow of the home page puts the session in progress, and the actions
    of the quiz page keep it there. *)
Lemma loaded_in_progress s0 d qs :
  qs ≠ [] →
  InProgress (quizReducer (quizReducer s0 (START_QUIZ d)) (SET_QUESTIONS qs)).
Proof.
  intros Hqs. unfold InProgress. simpl. rewrite length_replicate.
  destruct qs; [done|]. simpl. lia.
Qed.

Lemma length_spread l : length (spread l) = length l.
Proof. unfold spread. by rewrite length_fmap. Qed.

Lemma in_progress_step s a :
  InProgress s → in_progress_action a = true → InProgress (quizReducer s a).
Proof.
  intros (Hc & Hlen & Hidx) Ha. unfold InProgress.
  destruct a; try discriminate; simpl; try (split_and!; (done || lia)).
  split_and!; try done; try lia.
  unfold assign, is_array_index.
  destruct (bool_decide _); [|by rewrite length_spread].
  rewrite decide_True by (rewrite length_spread; lia).
  by rewrite length_insert, length_spread.
Qed.

(** C1: on a state with one answer slot per question, [FINISH_QUIZ] sets
    [score] to the number of indices whose slot holds the text of that
    question's correct answer and sets [isCompleted]; an index whose slot is
    [null] is never among the counted ones. *)
Theorem finish_quiz_score (s : QuizState) :
  length (userAnswers s) = length (questions s) →
  let s' := quizReducer s FINISH_QUIZ in
  score s' = count_correct (questions s) (userAnswers s)
  ∧ isCompleted s' = true
  ∧ ∀ i, userAnswers s !! i = Some Null →
         i ∉ correct_indices (questions s) (userAnswers s).
Proof.
  intros Hlen. simpl. split_and!; [|done|].
  - apply reduce_score_count. lia.
  - intros i Hi Hin. unfold correct_indices in Hin.
    apply list_elem_of_filter in Hin as [Hc _].
    unfold correct_at in Hc. by rewrite Hi in Hc.
Qed.

Lemma finish_quiz_score_witness :
  length (userAnswers answered_session) = length (questions answered_session)
  ∧ score completed_session = 1
  ∧ isCompleted completed_session = true
  ∧ ∀ i, userAnswers answered_session !! i = Some Null →
         i ∉ correct_indices (questions answered_session)
                             (userAnswers answered_session).
Proof.
  split; [reflexivity|].
  exact (finish_quiz_score answered_session eq_refl).
Defined.

(** Without one slot per question the count can come out differently: a
    second [SET_QUESTIONS] keeps the old position, a [SELECT_ANSWER] past
    the end leaves holes, the next spread turns them into [undefined], and
    [FINISH_QUIZ] then finds [undefined === undefined] at the indices that
    have no question. *)
Example stale_position_counts_undefined :
  let s := dispatch_all initialState
             [START_QUIZ easy; SET_QUESTIONS ten_questions;
              NEXT_QUESTION; NEXT_QUESTION; NEXT_QUESTION; NEXT_QUESTION;
              NEXT_QUESTION; SET_QUESTIONS three_questions;
              SELECT_ANSWER "Paris"; SELECT_ANSWER "Rome"; FINISH_QUIZ] in
  userAnswers s = [Null; Null; Null; Undef; Undef; Str "Rome"]
  ∧ score s = 2
  ∧ count_correct (questions s) (userAnswers s) = 0.
Proof. by vm_compute. Qed.

(** C2, as stated, fails: the session below is completed, [SELECT_ANSWER] is
    neither [START_QUIZ] nor [RESET_QUIZ], and dispatching it rewrites the
    slot of the current question (from "Bern" to "Oslo"). *)
Lemma select_answer_after_finish_rewrites :
  isCompleted completed_session = true
  ∧ keeps_session (SELECT_ANSWER "Oslo") = true
  ∧ userAnswers completed_session = [Str "Paris"; Null; Str "Bern"]
  ∧ userAnswers (quizReducer completed_session (SELECT_ANSWER "Oslo"))
    = [Str "Paris"; Null; Str "Oslo"].
Proof. by vm_compute. Qed.

(** C2, amended: on a completed state the actions [NEXT_QUESTION],
    [PREVIOUS_QUESTION], [FINISH_QUIZ], [SET_LOADING], [SET_ERROR],
    [DECREMENT_TIMER] and [RESET_TIMER] leave every answer slot unchanged
    and the state completed; [SELECT_ANSWER] is not held back by
    completion: it still writes the slot of the current question and
    leaves the other slots as they read. *)
Theorem answers_after_completion (s : QuizState) :
  isCompleted s = true →
  (∀ a, leaves_answers a = true →
        userAnswers (quizReducer s a) = userAnswers s
        ∧ isCompleted (quizReducer s a) = true)
  ∧ (∀ payload i,
        currentQuestionIndex s = Z.of_nat i →
        (i < length (userAnswers s))%nat →
        let s' := quizReducer s (SELECT_ANSWER payload) in
        isCompleted s' = true
        ∧ userAnswers s' !! i = Some (Str payload)
        ∧ ∀ j, j ≠ i → userAnswers s' !! j = spread (userAnswers s) !! j).
Proof.
  intros Hc. split.
  - intros a Ha. destruct a; try discriminate; done.
  - intros payload i Hi Hlt. simpl. split; [done|].
    unfold assign, is_array_index. rewrite Hi, Nat2Z.id.
    rewrite bool_decide_eq_true_2 by lia.
    rewrite decide_True by (by rewrite length_spread).
    split.
    + apply list_lookup_insert_eq. by rewrite length_spread.
    + intros j Hj. by apply list_lookup_insert_ne.
Qed.

Lemma answers_after_completion_witness :
  isCompleted completed_session = true
  ∧ (∀ a, leaves_answers a = true →
        userAnswers (quizReducer completed_session a)
          = userAnswers completed_session
        ∧ isCompleted (quizReducer completed_session a) = true)
  ∧ (∀ payload i,
        currentQuestionIndex completed_session = Z.of_nat i →
        (i < length (userAnswers completed_session))%nat →
        let s' := quizReducer completed_session (SELECT_ANSWER payload) in
        isCompleted s' = true
        ∧ userAnswers s' !! i = Some (Str payload)
        ∧ ∀ j, j ≠ i →
            userAnswers s' !! j = spread (userAnswers completed_session) !! j).
Proof.
  split; [reflexivity|].
  exact (answers_after_completion completed_session eq_refl).
Defined.

(** C8: [NEXT_QUESTION] moves the position to
    [min(position + 1, questions.length - 1)], [PREVIOUS_QUESTION] to
    [max(position - 1, 0)]; both put [timeLeft] back to 30 and leave the
    answers as they are.  Hence, in a session in progress at a position
    above 0, going back and then forward again ends at the same position,
    with the same answers, still in progress. *)
Theorem previous_then_next (s : QuizState) :
  let next := quizReducer s NEXT_QUESTION in
  let previous := quizReducer s PREVIOUS_QUESTION in
  currentQuestionIndex next
    = Z.min (currentQuestionIndex s + 1) (Z.of_nat (length (questions s)) - 1)
  ∧ currentQuestionIndex previous = Z.max (currentQuestionIndex s - 1) 0
  ∧ timeLeft next = 30 ∧ timeLeft previous = 30
  ∧ userAnswers next = userAnswers s ∧ userAnswers previous = userAnswers s
  ∧ (InProgress s → 0 < currentQuestionIndex s →
     let back_and_forth := quizReducer previous NEXT_QUESTION in
     currentQuestionIndex back_and_forth = currentQuestionIndex s
     ∧ userAnswers back_and_forth = userAnswers s
     ∧ userAnswers back_and_forth !! Z.to_nat (currentQuestionIndex back_and_forth)
       = userAnswers s !! Z.to_nat (currentQuestionIndex s)
     ∧ InProgress back_and_forth).
Proof.
  simpl. split_and!; try done.
  intros (Hc & Hlen & Hidx) Hpos.
  assert (Z.min (Z.max (currentQuestionIndex s - 1) 0 + 1)
                (Z.of_nat (length (questions s)) - 1)
          = currentQuestionIndex s) as Heq by lia.
  rewrite Heq. unfold InProgress. simpl.
  split_and!; try done; lia.
Qed.

Lemma previous_then_next_witness :
  InProgress answered_session
  ∧ 0 < currentQuestionIndex answered_session
  ∧ currentQuestionIndex
      (quizReducer (quizReducer answered_session PREVIOUS_QUESTION) NEXT_QUESTION)
    = 2
  ∧ userAnswers
      (quizReducer (quizReducer answered_session PREVIOUS_QUESTION) NEXT_QUESTION)
    = [Str "Paris"; Null; Str "Bern"].
Proof.
  assert (InProgress answered_session) as Hip.
  { unfold InProgress. vm_compute. split_and!; congruence. }
  assert (0 < currentQuestionIndex answered_session) as Hpos by reflexivity.
  split; [exact Hip|]. split; [exact Hpos|].
  destruct (previous_then_next answered_session) as (_ & _ & _ & _ & _ & _ & Hround).
  destruct (Hround Hip Hpos) as (Hi & Ha & _ & _).
  split; [exact Hi | exact Ha].
Defined.

(** C9: [START_QUIZ] followed by [SET_QUESTIONS] with ten questions gives a
    session in progress with ten [null] answer slots, one per question,
    position 0, 30 seconds on the timer, and [isLoading] and [error]
    cleared. *)
Theorem start_then_loaded (s0 : QuizState) (d : Difficulty)
    (qs : list QuizQuestion) :
  length qs = 10%nat →
  let s := quizReducer (quizReducer s0 (START_QUIZ d)) (SET_QUESTIONS qs) in
  userAnswers s = replicate 10 Null
  ∧ length (userAnswers s) = length (questions s)
  ∧ questions s = qs
  ∧ currentQuestionIndex s = 0
  ∧ timeLeft s = 30
  ∧ isLoading s = false
  ∧ error s = None
  ∧ isCompleted s = false
  ∧ difficulty s = d
  ∧ InProgress s.
Proof.
  intros Hlen. split_and!; try done.
  - simpl. by rewrite Hlen.
  - simpl. by rewrite length_replicate.
  - apply loaded_in_progress. by destruct qs.
Qed.

Lemma start_then_loaded_witness :
  length ten_questions = 10%nat
  ∧ userAnswers
      (quizReducer (quizReducer completed_session (START_QUIZ easy))
                   (SET_QUESTIONS ten_questions))
    = [Null; Null; Null; Null; Null; Null; Null; Null; Null; Null].
Proof.
  split; [reflexivity|].
  exact (proj1 (start_then_loaded completed_session easy ten_questions eq_refl)).
Defined.

(** C10: [FINISH_QUIZ] writes [score] and [isCompleted] and nothing else:
    the questions, the recorded answers, the position, the difficulty, the
    timer, the loading flag and the error are those of the state before. *)
Theorem finish_quiz_frame (s : QuizState) :
  let s' := quizReducer s FINISH_QUIZ in
  questions s' = questions s
  ∧ userAnswers s' = userAnswers s
  ∧ currentQuestionIndex s' = currentQuestionIndex s
  ∧ difficulty s' = difficulty s
  ∧ timeLeft s' = timeLeft s
  ∧ isLoading s' = isLoading s
  ∧ error s' = error s.
Proof. by simpl. Qed.

End ReducerProps.

(* ================================================================== *)
(** ** The question normalizer and the fetch *)
(* ================================================================== *)

Module ApiProps.
Import Js Api Spec Examples.

Lemma draw_index_le (r : Random) (i : nat) : draw_index r i ≤ i.
Proof.
  unfold draw_index, Math_floor_times.
  pose proof (in_unit_interval r) as Hr. apply bool_decide_eq_true_1 in Hr.
  assert (numerator r * (Z.of_nat i + 1) / denominator r < Z.of_nat i + 1)%Z.
  { apply Z.div_lt_upper_bound; [lia|]. nia. }
  assert (0 ≤ numerator r * (Z.of_nat i + 1) / denominator r)%Z.
  { apply Z.div_pos; [nia|lia]. }
  lia.
Qed.

Section Swap.
Context {T : Type}.
Implicit Types l : list T.

Lemma swap_length l i j : length (swap l i j) = length l.
Proof.
  unfold swap. destruct (l !! i), (l !! j); try done.
  by rewrite !length_insert.
Qed.

Lemma transpose_inj i j : Inj (=) (=) (transpose i j).
Proof. intros a b. unfold transpose. repeat case_decide; congruence. Qed.

Lemma swap_lookup l i j k :
  i < length l → j < length l → swap l i j !! k = l !! transpose i j k.
Proof.
  intros Hi Hj. unfold swap, transpose.
  destruct (lookup_lt_is_Some_2 l i Hi) as [x Hx].
  destruct (lookup_lt_is_Some_2 l j Hj) as [y Hy].
  rewrite Hx, Hy.
  destruct (decide (k = i)) as [->|Hki].
  - destruct (decide (i = j)) as [->|Hij].
    + rewrite list_lookup_insert_eq by (by rewrite length_insert). congruence.
    + rewrite list_lookup_insert_ne by congruence.
      rewrite list_lookup_insert_eq by done. congruence.
  - destruct (decide (k = j)) as [->|Hkj].
    + rewrite list_lookup_insert_eq by (by rewrite length_insert). congruence.
    + by rewrite !list_lookup_insert_ne by congruence.
Qed.

Lemma swap_perm l i j : swap l i j ≡ₚ l.
Proof.
  destruct (decide (i < length l ∧ j < length l)) as [[Hi Hj]|Hout].
  - apply Permutation_inj. split; [apply swap_length|].
    exists (transpose i j). split; [apply transpose_inj|].
    intros k. by apply swap_lookup.
  - unfold swap.
    destruct (l !! i) eqn:Hi; [|done]. destruct (l !! j) eqn:Hj; [|done].
    apply lookup_lt_Some in Hi, Hj. lia.
Qed.

(** Inside the loop of [shuffleArray] both indices of the swap are inside
    the array: the reads find an element and the writes do not grow it. *)
Lemma shuffle_loop_index_in_range l (r : Random) i :
  i < length l → is_Some (l !! i) ∧ is_Some (l !! draw_index r i).
Proof.
  intros Hi. pose proof (draw_index_le r i).
  split; apply lookup_lt_is_Some_2; lia.
Qed.

Lemma shuffle_loop_perm i l rng : (shuffle_loop i l rng).1 ≡ₚ l.
Proof.
  revert l rng. induction i as [|i IH]; intros l rng; simpl; [done|].
  rewrite IH. apply swap_perm.
Qed.

Lemma shuffleArray_perm l rng : (shuffleArray l rng).1 ≡ₚ l.
Proof. apply shuffle_loop_perm. Qed.

End Swap.

Section Normalizer.
Variable decodeHtmlEntities : string → string.
Variable fetch : string → Promise Response.

Lemma normalize_fields raw index rng :
  let q := (normalize decodeHtmlEntities raw index rng).1 in
  q_id q = "question-" +:+ pretty index
  ∧ question q = decodeHtmlEntities (api_question raw)
  ∧ answer q = decodeHtmlEntities (correct_answer raw)
  ∧ options q = (shuffleArray (decoded_options decodeHtmlEntities raw) rng).1
  ∧ category q = Some (api_category raw)
  ∧ q_difficulty q = Some (api_difficulty raw)
  ∧ q_type q = Some (api_type raw).
Proof.
  unfold normalize, decoded_options.
  by destruct (shuffleArray _ rng) as [shuffled rng'].
Qed.

Lemma normalize_shuffles raw index rng :
  let q := (normalize decodeHtmlEntities raw index rng).1 in
  options q ≡ₚ decoded_options decodeHtmlEntities raw
  ∧ answer q = decodeHtmlEntities (correct_answer raw).
Proof.
  destruct (normalize_fields raw index rng) as (_ & _ & Ha & Ho & _).
  simpl. rewrite Ha, Ho. split; [apply shuffleArray_perm|done].
Qed.

(** C5: the options the normalizer produces for a raw record are a
    permutation of the decoded correct answer together with the decoded
    incorrect answers, whatever the random source yields; the question's
    [answer] is the decoded correct answer, and it is among the options. *)
Theorem normalize_options_permutation (raw : ApiQuestion) (index : nat)
    (rng : Rng) :
  let q := (normalize decodeHtmlEntities raw index rng).1 in
  options q ≡ₚ decodeHtmlEntities (correct_answer raw)
                :: (decodeHtmlEntities <$> incorrect_answers raw)
  ∧ answer q = decodeHtmlEntities (correct_answer raw)
  ∧ answer q ∈ options q.
Proof.
  destruct (normalize_shuffles raw index rng) as [Hperm Ha].
  simpl in *. split_and!; [exact Hperm|exact Ha|].
  rewrite Hperm, Ha. left.
Qed.

Lemma map_from_spec {A B : Type} (f : A → nat → Rng → B * Rng)
    (l : list A) (k : nat) (rng : Rng) :
  let ys := (map_from f k l rng).1 in
  length ys = length l
  ∧ ∀ i x, l !! i = Some x → ∃ rng_i, ys !! i = Some (f x (k + i) rng_i).1.
Proof.
  revert k rng. induction l as [|x l IH]; intros k rng; simpl; [done|].
  destruct (f x k rng) as [y rng1] eqn:Hy.
  specialize (IH (S k) rng1).
  destruct (map_from f (S k) l rng1) as [ys rng2]. simpl in *.
  destruct IH as [Hlen Hnth]. split; [by rewrite Hlen|].
  intros [|i] x' Hx'; simpl in *.
  - injection Hx' as <-. exists rng. by rewrite Nat.add_0_r, Hy.
  - destruct (Hnth i x' Hx') as [rng_i Hi]. exists rng_i.
    by replace (k + S i) with (S k + i) by lia.
Qed.

(** The four exits of [fetchQuizQuestions], by what the network answers. *)
Lemma fetch_cases (difficulty : Difficulty) (rng : Rng) :
  let outcome := (fetchQuizQuestions decodeHtmlEntities fetch difficulty rng).1 in
  (∃ e, fetch (request_url difficulty) = Rejected e ∧ outcome = Rejected e)
  ∨ (∃ response, fetch (request_url difficulty) = Resolved response
       ∧ ok response = false
       ∧ outcome = Rejected (Error "Failed to fetch questions"))
  ∨ (∃ response e, fetch (request_url difficulty) = Resolved response
       ∧ ok response = true ∧ json response = Rejected e
       ∧ outcome = Rejected e)
  ∨ (∃ response data, fetch (request_url difficulty) = Resolved response
       ∧ ok response = true ∧ json response = Resolved data
       ∧ response_code data ≠ 0%Z
       ∧ outcome = Rejected (Error "No questions available for this difficulty"))
  ∨ (∃ response data, fetch (request_url difficulty) = Resolved response
       ∧ ok response = true ∧ json response = Resolved data
       ∧ response_code data = 0%Z
       ∧ outcome = Resolved (map_from (normalize decodeHtmlEntities) 0
                               (results data) rng).1).
Proof.
  unfold fetchQuizQuestions, request_url.
  destruct (fetch _) as [response|e]; [|left; by eauto].
  right. destruct (ok response) eqn:Hok; simpl; [|left; by eauto].
  right. destruct (json response) as [data|e] eqn:Hjson; [|left; by eauto 10].
  right. destruct (Z.eqb_spec (response_code data) 0) as [H0|H0]; simpl.
  - right. exists response, data.
    by destruct (map_from _ 0 (results data) rng).
  - left. exists response, data. by eauto 10.
Qed.

(** C7, as stated, fails: with a source that answers HTTP 200 and a body
    that is not JSON, the fetch is rejected although the transport call
    did not fail, the HTTP response is a success and no status code
    differs from 0. *)
Lemma unreadable_body_rejects :
  (fetchQuizQuestions no_entities source_with_unreadable_body easy sample_rng).1
    = Rejected SyntaxError
  ∧ ¬ transport_fails source_with_unreadable_body (request_url easy)
  ∧ ¬ http_not_ok source_with_unreadable_body (request_url easy)
  ∧ ¬ status_not_zero source_with_unreadable_body (request_url easy).
Proof. split; [reflexivity|]. split_and!; by intros H. Qed.

(** C7, amended: the fetch is rejected exactly when the transport call
    fails, the HTTP response is not a success, the body of a successful
    response cannot be read as JSON, or the status code of the body is not
    0; a rejected fetch carries no question list at all, and every other
    fetch resolves with one question per result record, in the order of
    the records, each the normalized form of its record: identifier
    [question-<index>], decoded question text and correct answer, the
    decoded correct and incorrect answers in some order as options, and
    the category, difficulty and type of the record. *)
Theorem fetch_fails_iff (difficulty : Difficulty) (rng : Rng) :
  let url := request_url difficulty in
  let outcome := (fetchQuizQuestions decodeHtmlEntities fetch difficulty rng).1 in
  ((∃ e, outcome = Rejected e)
     ↔ transport_fails fetch url ∨ http_not_ok fetch url
       ∨ body_read_fails fetch url ∨ status_not_zero fetch url)
  ∧ ((∃ e, outcome = Rejected e)
     ∨ ∃ response data qs,
         fetch url = Resolved response ∧ json response = Resolved data
         ∧ outcome = Resolved qs
         ∧ length qs = length (results data)
         ∧ ∀ i raw, results data !! i = Some raw →
             ∃ q, qs !! i = Some q
                  ∧ normalized decodeHtmlEntities raw i q).
Proof.
  simpl. unfold transport_fails, http_not_ok, body_read_fails, status_not_zero.
  destruct (fetch_cases difficulty rng)
    as [(e & Hf & Ho) | [(r & Hf & Hok & Ho) | [(r & e & Hf & Hok & Hj & Ho)
       | [(r & d & Hf & Hok & Hj & Hc & Ho) | (r & d & Hf & Hok & Hj & Hc & Ho)]]]];
    rewrite Ho, Hf, ?Hj.
  - split; [|by eauto]. split; by eauto.
  - split; [|by eauto]. split; by eauto.
  - split; [|by eauto]. split; by eauto 10.
  - split; [|by eauto]. split; by eauto 10.
  - split.
    + split; [intros [e He]; discriminate|].
      intros [[]|[Hn|[[_ []]|Hn]]]; congruence.
    + right. exists r, d, (map_from (normalize decodeHtmlEntities) 0 (results d) rng).1.
      destruct (map_from_spec (normalize decodeHtmlEntities) (results d) 0 rng)
        as [Hlen Hnth].
      split_and!; try done.
      intros i raw Hraw. destruct (Hnth i raw Hraw) as [rng_i Hq].
      eexists. split; [exact Hq|].
      destruct (normalize_fields raw i rng_i)
        as (Hid & Hqu & Ha & Ho' & Hcat & Hdi & Hty).
      unfold normalized. simpl in *.
      rewrite Ho'. split_and!; try done. apply shuffleArray_perm.
Qed.

Lemma occurrences_perm (x : string) (l k : list string) :
  l ≡ₚ k → occurrences x l = occurrences x k.
Proof. intros Hperm. unfold occurrences. by rewrite Hperm. Qed.

Lemma occurrences_head_NoDup (x : string) (l : list string) :
  NoDup (x :: l) → occurrences x (x :: l) = 1.
Proof.
  intros Hnd. apply NoDup_cons in Hnd as [Hx _].
  unfold occurrences. rewrite filter_cons_True by done. simpl. f_equal.
  induction l as [|y l IH]; [done|].
  apply not_elem_of_cons in Hx as [Hxy Hx].
  rewrite filter_cons_False by congruence. by apply IH.
Qed.

(** C6, amended: a load that does not fail comes from a response with
    status code 0 and produces exactly one question per record of that
    response (ten for the ten records the source is asked for); each
    question has a non-empty option list that contains its answer, exactly
    once when the decoded option texts of its record are distinct. *)
Theorem successful_load (difficulty : Difficulty) (rng : Rng)
    (qs : list QuizQuestion) :
  (fetchQuizQuestions decodeHtmlEntities fetch difficulty rng).1 = Resolved qs →
  ∃ response data,
    fetch (request_url difficulty) = Resolved response
    ∧ json response = Resolved data
    ∧ response_code data = 0%Z
    ∧ length qs = length (results data)
    ∧ (length (results data) = 10 → length qs = 10)
    ∧ ∀ i raw, results data !! i = Some raw →
        ∃ q, qs !! i = Some q
             ∧ options q ≠ []
             ∧ answer q ∈ options q
             ∧ (NoDup (decoded_options decodeHtmlEntities raw) →
                occurrences (answer q) (options q) = 1).
Proof.
  intros Hqs.
  destruct (fetch_cases difficulty rng)
    as [(e & _ & Ho) | [(r & _ & _ & Ho) | [(r & e & _ & _ & _ & Ho)
       | [(r & d & _ & _ & _ & _ & Ho) | (r & d & Hf & Hok & Hj & Hc & Ho)]]]];
    rewrite Hqs in Ho; try discriminate.
  injection Ho as ->.
  destruct (map_from_spec (normalize decodeHtmlEntities) (results d) 0 rng)
    as [Hlen Hnth].
  exists r, d. split_and!; try done; [congruence|].
  intros i raw Hraw. destruct (Hnth i raw Hraw) as [rng_i Hq].
  eexists. split; [exact Hq|].
  simpl.
  destruct (normalize_shuffles raw i rng_i) as [Hperm Ha]. simpl in Hperm, Ha.
  assert (answer (normalize decodeHtmlEntities raw i rng_i).1
          ∈ options (normalize decodeHtmlEntities raw i rng_i).1) as Hin
    by (rewrite Hperm, Ha; left).
  split_and!; [|done|].
  - intros Hnil. rewrite Hnil in Hin. by apply elem_of_nil in Hin.
  - intros Hnd. rewrite (occurrences_perm _ _ _ Hperm), Ha.
    by apply occurrences_head_NoDup.
Qed.

End Normalizer.

(** C6, as stated, fails: a source that answers with HTTP success, status
    code 0 and no records makes the load succeed with no question at all,
    not ten. *)
Lemma load_without_records :
  (fetchQuizQuestions no_entities (source_with []) easy sample_rng).1
  = Resolved [].
Proof. reflexivity. Qed.

Lemma successful_load_witness :
  ∃ qs,
    (fetchQuizQuestions no_entities (source_with ten_records) hard sample_rng).1
    = Resolved qs
    ∧ length qs = 10
    ∧ (q_id <$> qs) !! 9 = Some "question-9"
    ∧ ∀ q, q ∈ qs → options q ≠ [] ∧ answer q ∈ options q.
Proof.
  eexists. split; [vm_compute; reflexivity|].
  match goal with |- length ?l = _ ∧ _ => set (qs := l) end.
  destruct (successful_load no_entities (source_with ten_records) hard
              sample_rng qs) as (r & d & Hf & Hj & _ & Hlen & _ & Hq).
  { vm_compute. reflexivity. }
  injection Hf as <-. injection Hj as <-.
  split; [exact Hlen|]. split; [reflexivity|].
  intros q Hin. apply list_elem_of_lookup in Hin as [i Hi].
  assert (i < length (results {| response_code := 0; results := ten_records |}))
    as Hlt by (rewrite <- Hlen; by apply lookup_lt_Some in Hi).
  destruct (lookup_lt_is_Some_2 _ _ Hlt) as [raw Hraw].
  destruct (Hq i raw Hraw) as (q' & Hq' & Hne & Hin' & _).
  rewrite Hi in Hq'. injection Hq' as <-. done.
Defined.

Lemma fetch_fails_iff_witness :
  (fetchQuizQuestions no_entities source_without_questions medium sample_rng).1
    = Rejected (Error "No questions available for this difficulty")
  ∧ status_not_zero source_without_questions (request_url medium)
  ∧ ∃ qs,
      (fetchQuizQuestions no_entities (source_with three_records) easy
         sample_rng).1 = Resolved qs
      ∧ ∀ i raw, three_records !! i = Some raw →
          ∃ q, qs !! i = Some q ∧ normalized no_entities raw i q.
Proof.
  split; [reflexivity|]. split.
  - destruct (fetch_fails_iff no_entities source_without_questions medium
                sample_rng) as [[Hfail _] _].
    destruct Hfail as [[]|[Hn|[[_ []]|Hs]]];
      [by eexists | discriminate Hn | exact Hs].
  - destruct (fetch_fails_iff no_entities (source_with three_records) easy
                sample_rng) as [_ [[e He]|(r & d & qs & Hf & Hj & Ho & _ & Hq)]].
    + discriminate He.
    + injection Hf as <-. injection Hj as <-. by exists qs.
Defined.

End ApiProps.

(* ================================================================== *)
(** ** The JSON codec on ledgers *)
(* ================================================================== *)

Module JsonProps.
Import Js Json Spec.
#[local] Arguments String.append !_ _ / : simpl nomatch.

Lemma append_assoc (a b c : string) : (a +:+ b) +:+ c = a +:+ (b +:+ c).
Proof. induction a as [|x a IH]; simpl; [done|]. by f_equal. Qed.

Lemma append_cons (c : ascii) (a b : string) :
  String c a +:+ b = String c (a +:+ b).
Proof. reflexivity. Qed.

Lemma lex_run_cons (c : ascii) (s : string) (st : lex_state) :
  lex_run (String c s) st = lex_run s (lex_step st c).
Proof. reflexivity. Qed.

Lemma append_nil_r (a : string) : a +:+ "" = a.
Proof. induction a as [|x a IH]; simpl; [done|]. by f_equal. Qed.

Lemma lex_run_app (s1 s2 : string) (st : lex_state) :
  lex_run (s1 +:+ s2) st = lex_run s2 (lex_run s1 st).
Proof. revert st. induction s1 as [|c s1 IH]; intros st; simpl; [done|]. apply IH. Qed.

(** Strings: reading back what [quote] wrote. *)
Lemma lex_escape_char (c : ascii) (acc : string) (toks : list token) (rest : string) :
  lex_run (escape_char c +:+ rest) (LString acc, toks)
  = lex_run rest (LString (snoc acc c), toks).
Proof. destruct c as [[] [] [] [] [] [] [] []]; reflexivity. Qed.

Lemma lex_escape (s : string) (acc : string) (toks : list token) (rest : string) :
  lex_run (escape s +:+ rest) (LString acc, toks)
  = lex_run rest (LString (acc +:+ s), toks).
Proof.
  revert acc. induction s as [|c s IH]; intros acc; simpl.
  - by rewrite append_nil_r.
  - rewrite append_assoc, lex_escape_char, IH. unfold snoc.
    by rewrite append_assoc.
Qed.

Lemma lex_quote (s : string) (toks : list token) (rest : string) :
  lex_run (quote s +:+ rest) (LStart, toks)
  = lex_run rest (LStart, toks ++ [TScalar (JStr s)]).
Proof.
  unfold quote. rewrite append_cons, lex_run_cons, append_assoc.
  change (lex_step (LStart, toks) dquote) with (LString "", toks).
  by rewrite lex_escape.
Qed.

Lemma digit_cases (d : N) :
  (d < 10)%N →
  d = 0%N ∨ d = 1%N ∨ d = 2%N ∨ d = 3%N ∨ d = 4%N ∨ d = 5%N ∨ d = 6%N
  ∨ d = 7%N ∨ d = 8%N ∨ d = 9%N.
Proof. lia. Qed.

Lemma lex_first_digit (d : N) (neg : bool) (toks : list token) :
  (0 < d < 10)%N →
  lex_step (start_mode neg, toks) (pretty_N_char d) = (LInt neg d, toks).
Proof.
  intros [Hpos Hd]. destruct (digit_cases d Hd) as [->|Hc]; [lia|].
  destruct neg; repeat (destruct Hc as [->|Hc]; [reflexivity|]); by subst.
Qed.

Lemma lex_next_digit (d n : N) (neg : bool) (toks : list token) :
  (d < 10)%N →
  lex_step (LInt neg n, toks) (pretty_N_char d) = (LInt neg (10 * n + d), toks).
Proof.
  intros Hd. destruct (digit_cases d Hd) as [->|Hc]; [reflexivity|].
  repeat (destruct Hc as [->|Hc]; [reflexivity|]); by subst.
Qed.

Lemma lex_digits (x : N) (s : string) (neg : bool) (toks : list token) :
  (0 < x)%N →
  lex_run (pretty_N_go x s) (start_mode neg, toks) = lex_run s (LInt neg x, toks).
Proof.
  revert s. induction (N.lt_wf_0 x) as [x _ IH]. intros s Hx.
  rewrite pretty_N_go_step by done.
  assert (x `mod` 10 < 10)%N as Hmod by (apply N.mod_lt; lia).
  destruct (decide (x `div` 10 = 0)%N) as [Hz|Hnz].
  - assert (x < 10)%N as Hlt by (by apply (N.div_small_iff x 10)).
    rewrite Hz, pretty_N_go_0, lex_run_cons, N.mod_small by done.
    by rewrite lex_first_digit.
  - assert (x `div` 10 < x)%N as Hlt by (apply N.div_lt; lia).
    assert (0 < x `div` 10)%N as Hpos by (by apply N.neq_0_lt_0).
    rewrite IH by done.
    rewrite lex_run_cons, lex_next_digit by done.
    by rewrite <- N.div_mod by lia.
Qed.

Lemma lex_close_int (neg : bool) (n : N) (c : ascii) (toks : list token) :
  ends_number c →
  lex_step (LInt neg n, toks) c = start_step (toks ++ [TScalar (JNum (signed neg n))]) c.
Proof. intros (Hd & Hdot & He). simpl. by rewrite Hd, Hdot, He. Qed.

Lemma lex_number (n : Z) (c : ascii) (toks : list token) (rest : string) :
  ends_number c →
  lex_run (pretty n +:+ String c rest) (LStart, toks)
  = lex_run rest (start_step (toks ++ [TScalar (JNum n)]) c).
Proof.
  intros Hc. rewrite lex_run_app, lex_run_cons.
  destruct n as [|p|p]; unfold pretty, pretty_Z.
  - rewrite lex_run_cons. cbn [lex_run].
    change (lex_step (LStart, toks) "0") with (LZero false, toks).
    destruct Hc as (Hd & Hdot & He). simpl. by rewrite Hd, Hdot, He.
  - unfold pretty, pretty_positive, pretty, pretty_N.
    rewrite decide_False by done.
    rewrite (lex_digits (N.pos p) "" false) by done. cbn [lex_run].
    by rewrite lex_close_int.
  - unfold pretty, pretty_positive, pretty, pretty_N.
    rewrite decide_False by done. rewrite append_cons, lex_run_cons.
    change (lex_step (LStart, toks) "-") with (start_mode true, toks).
    rewrite (lex_digits (N.pos p) "" true) by done. cbn [lex_run].
    by rewrite lex_close_int.
Qed.

Lemma lex_punctuation (c : ascii) (t : token) (rest : string) (toks : list token) :
  (c, t) ∈ [("{", TLBrace); ("}", TRBrace); ("[", TLBracket);
            ("]", TRBracket); (",", TComma); (":", TColon)]%char →
  lex_run (String c rest) (LStart, toks) = lex_run rest (LStart, toks ++ [t]).
Proof.
  intros Hin. rewrite lex_run_cons. f_equal.
  repeat (apply elem_of_cons in Hin as [[= -> ->]|Hin]; [reflexivity|]).
  by apply elem_of_nil in Hin.
Qed.

Lemma lex_number_then (n : Z) (c : ascii) (t : token) (toks : list token)
    (rest : string) :
  (c, t) ∈ [(",", TComma); ("}", TRBrace)]%char →
  lex_run (pretty n +:+ String c rest) (LStart, toks)
  = lex_run rest (LStart, toks ++ [TScalar (JNum n); t]).
Proof.
  intros Hin.
  assert (ends_number c ∧ ∀ toks', start_step toks' c = (LStart, toks' ++ [t]))
    as [Hend Hstart].
  { repeat (apply elem_of_cons in Hin as [[= -> ->]|Hin]; [by repeat split|]).
    by apply elem_of_nil in Hin. }
  rewrite lex_number, Hstart by done. by rewrite <- app_assoc.
Qed.

End JsonProps.

Module LedgerProps.
Import Js Json Ledger Spec Examples JsonProps.
#[local] Arguments String.append !_ _ / : simpl nomatch.

Lemma stringify_HighScore (h : HighScore) (rest : string) :
  JSON_stringify (HighScore_to_json h) +:+ rest
  = String "{" (quote "score" +:+ String ":" (pretty (hs_score h) +:+ String ","
      (quote "totalQuestions" +:+ String ":" (pretty (hs_totalQuestions h) +:+ String ","
      (quote "difficulty" +:+ String ":" (quote (Api.difficulty_text (hs_difficulty h)) +:+ String ","
      (quote "date" +:+ String ":" (quote (hs_date h) +:+ String "}" rest))))))))%char.
Proof.
  unfold HighScore_to_json. cbn [JSON_stringify fmap list_fmap fst snd String.concat].
  by rewrite !append_assoc.
Qed.

Lemma lex_HighScore (h : HighScore) (toks : list token) (rest : string) :
  lex_run (JSON_stringify (HighScore_to_json h) +:+ rest) (LStart, toks)
  = lex_run rest (LStart, toks ++ HighScore_tokens h).
Proof.
  rewrite stringify_HighScore.
  rewrite (lex_punctuation _ TLBrace) by set_solver.
  rewrite lex_quote, (lex_punctuation _ TColon) by set_solver.
  rewrite (lex_number_then _ _ TComma) by set_solver.
  rewrite lex_quote, (lex_punctuation _ TColon) by set_solver.
  rewrite (lex_number_then _ _ TComma) by set_solver.
  rewrite lex_quote, (lex_punctuation _ TColon) by set_solver.
  rewrite lex_quote, (lex_punctuation _ TComma) by set_solver.
  rewrite lex_quote, (lex_punctuation _ TColon) by set_solver.
  rewrite lex_quote, (lex_punctuation _ TRBrace) by set_solver.
  by rewrite <- !app_assoc.
Qed.

Lemma lex_ledger_items (l : list HighScore) (toks : list token) (rest : string) :
  lex_run (ledger_items_text l +:+ rest) (LStart, toks)
  = lex_run rest (LStart, toks ++ ledger_tokens l).
Proof.
  revert toks. induction l as [|h l IH]; intros toks.
  - by rewrite app_nil_r.
  - destruct l as [|h' l].
    + apply lex_HighScore.
    + change (ledger_items_text (h :: h' :: l))
        with (JSON_stringify (HighScore_to_json h)
              +:+ String "," (ledger_items_text (h' :: l))).
      rewrite append_assoc, lex_HighScore, append_cons.
      rewrite (lex_punctuation _ TComma) by set_solver.
      rewrite IH. cbn [ledger_tokens]. by rewrite <- !app_assoc.
Qed.

Lemma lex_ledger (l : list HighScore) :
  lex (JSON_stringify (ledger_json l))
  = Some (TLBracket :: ledger_tokens l ++ [TRBracket]).
Proof.
  unfold lex, ledger_json. cbn [JSON_stringify].
  change (String.concat "," (JSON_stringify <$> (HighScore_to_json <$> l)))
    with (ledger_items_text l).
  rewrite append_cons, (lex_punctuation _ TLBracket) by set_solver.
  change ("" +:+ ledger_items_text l +:+ "]") with (ledger_items_text l +:+ "]").
  rewrite lex_ledger_items.
  by rewrite (lex_punctuation _ TRBracket) by set_solver.
Qed.

Lemma parse_HighScore (h : HighScore) (mode : parse_mode) (items : list json)
    (stack : list frame) (toks : list token) :
  mode = PValue ∨ mode = PArrayStart →
  foldl parse_step (mode, FArray items :: stack) (HighScore_tokens h ++ toks)
  = foldl parse_step
      (PArrayNext, FArray (items ++ [HighScore_to_json h]) :: stack) toks.
Proof. intros [-> | ->]; rewrite foldl_app; reflexivity. Qed.

Lemma parse_ledger_items (l : list HighScore) (mode : parse_mode)
    (items : list json) (stack : list frame) (toks : list token) :
  l ≠ [] → mode = PValue ∨ mode = PArrayStart →
  foldl parse_step (mode, FArray items :: stack) (ledger_tokens l ++ toks)
  = foldl parse_step
      (PArrayNext, FArray (items ++ (HighScore_to_json <$> l)) :: stack) toks.
Proof.
  revert mode items. induction l as [|h l IH]; intros mode items Hne Hmode; [done|].
  destruct l as [|h' l].
  - by apply parse_HighScore.
  - cbn [ledger_tokens]. rewrite <- app_assoc, parse_HighScore by done.
    rewrite <- app_comm_cons. cbn [foldl parse_step].
    rewrite IH by (done || by left).
    by rewrite fmap_cons, <- app_assoc.
Qed.

Lemma parse_ledger (l : list HighScore) :
  parse_tokens (TLBracket :: ledger_tokens l ++ [TRBracket])
  = Some (ledger_json l).
Proof.
  unfold parse_tokens, ledger_json. destruct l as [|h l]; [reflexivity|].
  cbn [foldl]. change (parse_step (PValue, []) TLBracket)
    with (PArrayStart, [FArray []]).
  rewrite parse_ledger_items by (done || by right).
  reflexivity.
Qed.

(** What [JSON.stringify] writes for a ledger, [JSON.parse] reads back. *)
Lemma parse_stringify_ledger (l : list HighScore) :
  JSON_parse (JSON_stringify (ledger_json l)) = Returns (ledger_json l).
Proof. unfold JSON_parse. by rewrite lex_ledger; simpl; rewrite parse_ledger. Qed.

Lemma Difficulty_of_text_difficulty_text (d : Difficulty) :
  Difficulty_of_text (Api.difficulty_text d) = Some d.
Proof. by destruct d. Qed.

Lemma json_to_HighScore_to_json (h : HighScore) :
  json_to_HighScore (HighScore_to_json h) = Some h.
Proof.
  unfold json_to_HighScore, HighScore_to_json.
  rewrite decide_True by done.
  rewrite Difficulty_of_text_difficulty_text. by destruct h.
Qed.

Lemma decode_ledger_json (l : list HighScore) :
  mapM json_to_HighScore (HighScore_to_json <$> l) = Some l.
Proof. apply mapM_fmap_Some, json_to_HighScore_to_json. Qed.

Lemma stringify_ledger_truthy (l : list HighScore) :
  truthy (JSON_stringify (ledger_json l)) = true.
Proof. reflexivity. Qed.

(** *** The sort *)

Section Sort.
Context {A : Type} (compare : A → A → Z).

Lemma sort_insert_perm (x : A) (l : list A) : sort_insert compare x l ≡ₚ x :: l.
Proof.
  induction l as [|y l IH]; simpl; [done|].
  destruct (0 <? compare x y)%Z; [|done].
  by rewrite IH, Permutation_swap.
Qed.

Lemma Array_sort_perm (l : list A) : Array_sort compare l ≡ₚ l.
Proof.
  induction l as [|x l IH]; simpl; [done|].
  by rewrite sort_insert_perm, IH.
Qed.

End Sort.

Lemma sort_insert_sorted (x : HighScore) (l : list HighScore) :
  StronglySorted desc l → StronglySorted desc (sort_insert by_score x l).
Proof.
  induction 1 as [|y l Hl IH Hy]; simpl.
  - repeat constructor.
  - unfold by_score at 1. destruct (Z.ltb_spec 0 (hs_score y - hs_score x)).
    + constructor; [done|]. rewrite sort_insert_perm.
      constructor; [unfold desc; lia | done].
    + constructor; [by constructor|].
      constructor; [unfold desc; lia|].
      eapply Forall_impl; [exact Hy|]. unfold desc. intros z Hz. lia.
Qed.

Lemma Array_sort_sorted (l : list HighScore) :
  StronglySorted desc (Array_sort by_score l).
Proof.
  induction l as [|x l IH]; simpl; [constructor|].
  by apply sort_insert_sorted.
Qed.

Lemma StronglySorted_sorted_desc (l : list HighScore) :
  StronglySorted desc l → sorted_desc l.
Proof.
  induction 1 as [|x l Hl IH Hx]; intros i j a b Hij Ha Hb.
  - by rewrite lookup_nil in Ha.
  - destruct j as [|j]; [lia|]. simpl in Hb.
    destruct i as [|i]; simpl in Ha.
    + injection Ha as <-.
      rewrite Forall_forall in Hx. apply Hx. by eapply list_elem_of_lookup_2.
    + apply (IH i j); [lia|done|done].
Qed.

Lemma sorted_desc_take (n : nat) (l : list HighScore) :
  sorted_desc l → sorted_desc (take n l).
Proof.
  intros Hl i j a b Hij Ha Hb.
  apply lookup_take_Some in Ha as [Ha _]. apply lookup_take_Some in Hb as [Hb _].
  by apply (Hl i j).
Qed.

Lemma written_ok (l : list HighScore) (h : HighScore) : ledger_ok (written l h).
Proof.
  unfold written. split.
  - rewrite length_take. lia.
  - apply sorted_desc_take, StronglySorted_sorted_desc, Array_sort_sorted.
Qed.

(** *** Reading and writing the storage *)

Lemma stored_ledger_setItem (l : list HighScore) (localStorage : Storage) :
  stored_ledger
    (setItem "quiz-high-scores" (JSON_stringify (ledger_json l)) localStorage)
  = Some l.
Proof.
  unfold stored_ledger, getHighScores, getItem, setItem.
  rewrite lookup_insert_eq, stringify_ledger_truthy, parse_stringify_ledger.
  apply decode_ledger_json.
Qed.

Lemma saveHighScore_completed (state : QuizState) (now : string)
    (localStorage : Storage) (l : list HighScore) :
  isCompleted state = true →
  stored_ledger localStorage = Some l →
  saveHighScore state now localStorage
  = Returns (setItem "quiz-high-scores"
               (JSON_stringify (ledger_json (written l (entry_of state now))))
               localStorage).
Proof.
  intros Hc Hl. unfold saveHighScore, stored_ledger in *. rewrite Hc.
  destruct (getHighScores localStorage) as [v|e|]; try discriminate.
  destruct v; try discriminate. by rewrite Hl.
Qed.

Lemma saveHighScore_not_completed (state : QuizState) (now : string)
    (localStorage : Storage) :
  isCompleted state = false → saveHighScore state now localStorage = Returns localStorage.
Proof. intros Hc. unfold saveHighScore. by rewrite Hc. Qed.

(** C4: whatever the storage holds, a write for a session that is not
    completed returns the storage as it was.  From a storage that holds a
    well-formed ledger, every run of writes goes through and leaves a
    well-formed ledger behind; that ledger has at most five entries in
    descending order of score if the ledger at the start had, or if one
    of the writes was for a completed session. *)
Theorem ledger_writes :
  (∀ state now (localStorage : Storage),
      isCompleted state = false →
      saveHighScore state now localStorage = Returns localStorage)
  ∧ ∀ (writes : list (QuizState * string)) (localStorage : Storage)
      (l0 : list HighScore),
      stored_ledger localStorage = Some l0 →
      ∃ (localStorage' : Storage) (l' : list HighScore),
        save_all writes localStorage = Returns localStorage'
        ∧ stored_ledger localStorage' = Some l'
        ∧ (ledger_ok l0 → ledger_ok l')
        ∧ ((∃ w, w ∈ writes ∧ isCompleted w.1 = true) → ledger_ok l').
Proof.
  split; [apply saveHighScore_not_completed|].
  induction writes as [|[state now] writes IH]; intros localStorage l0 Hl0.
  - exists localStorage, l0. split_and!; try done.
    intros (w & Hw & _). by apply elem_of_nil in Hw.
  - simpl. destruct (isCompleted state) eqn:Hc.
    + rewrite (saveHighScore_completed _ _ _ l0) by done.
      destruct (IH _ _ (stored_ledger_setItem (written l0 (entry_of state now))
                          localStorage))
        as (st' & l' & Hrun & Hst' & Hok & _).
      exists st', l'. pose proof (written_ok l0 (entry_of state now)).
      split_and!; auto.
    + rewrite saveHighScore_not_completed by done.
      destruct (IH _ _ Hl0) as (st' & l' & Hrun & Hst' & Hok & Hsome).
      exists st', l'. split_and!; try done.
      intros (w & Hw & Hwc). apply Hsome.
      apply elem_of_cons in Hw as [->|Hw]; [simpl in Hwc; congruence|].
      by exists w.
Qed.

Lemma ledger_writes_witness :
  stored_ledger storage_with_ledger = Some sample_ledger
  ∧ ledger_ok sample_ledger
  ∧ ∃ (localStorage' : Storage) (l' : list HighScore),
      save_all sample_writes storage_with_ledger = Returns localStorage'
      ∧ stored_ledger localStorage' = Some l'
      ∧ ledger_ok l'.
Proof.
  assert (stored_ledger storage_with_ledger = Some sample_ledger) as Hstored
    by (by vm_compute).
  assert (ledger_ok sample_ledger) as Hok.
  { split; [simpl; lia|].
    apply StronglySorted_sorted_desc.
    repeat constructor; unfold desc; simpl; lia. }
  split; [exact Hstored|]. split; [exact Hok|].
  destruct ledger_writes as [_ Hwrites].
  destruct (Hwrites sample_writes storage_with_ledger sample_ledger Hstored)
    as (st' & l' & Hrun & Hst' & Hkeep & _).
  exists st', l'. split; [exact Hrun|]. split; [exact Hst'|]. exact (Hkeep Hok).
Defined.

(** The same run, computed: of the nine entries the five best stay, and
    among equal scores the entry written first comes first. *)
Example sample_writes_ledger :
  ledger_after sample_writes storage_with_ledger
  = Some [{| hs_score := 9; hs_totalQuestions := 10; hs_difficulty := hard;
             hs_date := "2024-05-01T10:05:00.000Z" |};
          {| hs_score := 4; hs_totalQuestions := 10; hs_difficulty := easy;
             hs_date := "2024-04-30T08:00:00.000Z" |};
          {| hs_score := 3; hs_totalQuestions := 3; hs_difficulty := hard;
             hs_date := "2024-05-01T10:05:00.000Z" |};
          {| hs_score := 3; hs_totalQuestions := 3; hs_difficulty := easy;
             hs_date := "2024-05-02T09:00:00.000Z" |};
          {| hs_score := 2; hs_totalQuestions := 3; hs_difficulty := medium;
             hs_date := "2024-05-01T10:15:00.000Z" |}]%Z.
Proof. by vm_compute. Qed.

(** C3, as stated, fails: with a text under the ledger key that is not
    JSON, the read does not return the empty list, it throws the
    [SyntaxError] of [JSON.parse]. *)
Lemma corrupt_ledger_read_throws :
  getItem "quiz-high-scores" storage_with_corrupt_ledger = Some "[object Object]"
  ∧ getHighScores storage_with_corrupt_ledger = Throws SyntaxError.
Proof. by vm_compute. Qed.

(** C3, amended: the read returns the empty list when nothing is stored
    under the ledger key, or the empty text is; it returns the stored
    entries when the text is one a ledger write stored; and when the text
    is not valid JSON it throws the [SyntaxError] of [JSON.parse] instead
    of returning a list. *)
Theorem getHighScores_outcomes (localStorage : Storage) :
  (getItem "quiz-high-scores" localStorage = None →
     getHighScores localStorage = Returns (JArr []))
  ∧ (getItem "quiz-high-scores" localStorage = Some "" →
     getHighScores localStorage = Returns (JArr []))
  ∧ (∀ l, getItem "quiz-high-scores" localStorage
            = Some (JSON_stringify (ledger_json l)) →
          getHighScores localStorage = Returns (ledger_json l)
          ∧ stored_ledger localStorage = Some l)
  ∧ (∀ text, getItem "quiz-high-scores" localStorage = Some text →
             text ≠ "" → JSON_parse text = Throws SyntaxError →
             getHighScores localStorage = Throws SyntaxError).
Proof.
  unfold stored_ledger, getHighScores. split_and!.
  - by intros ->.
  - by intros ->.
  - intros l ->.
    rewrite stringify_ledger_truthy, parse_stringify_ledger.
    split; [done|]. apply decode_ledger_json.
  - intros text -> Hne Hthrow. by destruct text.
Qed.

Lemma getHighScores_outcomes_witness :
  getItem "quiz-high-scores" storage_with_ledger
    = Some (JSON_stringify (ledger_json sample_ledger))
  ∧ getHighScores storage_with_ledger = Returns (ledger_json sample_ledger)
  ∧ getItem "quiz-high-scores" (setItem "theme" "dark" ∅) = None
  ∧ getHighScores (setItem "theme" "dark" ∅) = Returns (JArr [])
  ∧ JSON_parse "[object Object]" = Throws SyntaxError
  ∧ getHighScores storage_with_corrupt_ledger = Throws SyntaxError.
Proof.
  assert (getItem "quiz-high-scores" storage_with_ledger
          = Some (JSON_stringify (ledger_json sample_ledger))) as Hstored
    by (by vm_compute).
  assert (getItem "quiz-high-scores" (setItem "theme" "dark" ∅) = None)
    as Hnone by reflexivity.
  assert (getItem "quiz-high-scores" storage_with_corrupt_ledger
          = Some "[object Object]") as Hcorrupt by (by vm_compute).
  assert (JSON_parse "[object Object]" = Throws SyntaxError) as Hthrow
    by reflexivity.
  split; [exact Hstored|].
  split; [exact (proj1 (proj1 (proj2 (proj2 (getHighScores_outcomes storage_with_ledger)))
                         sample_ledger Hstored))|].
  split; [exact Hnone|].
  split; [exact (proj1 (getHighScores_outcomes _) Hnone)|].
  split; [exact Hthrow|].
  refine (proj2 (proj2 (proj2 (getHighScores_outcomes storage_with_corrupt_ledger)))
            _ Hcorrupt _ Hthrow).
  discriminate.
Defined.

End LedgerProps.
